(** * CloudConnect-ReactMUI: the configuration store and the instructions
      generator of [src/App.jsx]

    The component [App] keeps a form (configuration name, IP, user, port,
    selected key), a set of named configurations persisted in the
    [localStorage] slot ['ssh-vnc-configs-mui'] as JSON text, and renders a
    block of shell commands from the form.  This file embeds the event
    handlers of [App] as functions over an explicit application state and
    proves the properties the specification states about them.

    Layout:
    - [Text]      JavaScript strings as sequences of UTF-16 code units;
    - [Json]      the values [JSON.parse] produces, ordinary-object property
                  order, [JSON.parse] and [JSON.stringify];
    - [Js]        the few language operations the handlers use (truthiness,
                  property read, [delete], object spread, [ToString],
                  [trim], [split]);
    - [App]       the state of the component and its handlers;
    - the theorems. *)

From Stdlib Require Import Ascii String NArith DecimalString Lia.
From stdpp Require Import base option list sorting gmap.

Set Default Proof Using "Type".

(** ** Text: JavaScript strings *)

(** A JavaScript string is a finite sequence of 16-bit code units.  A code
    unit is kept as an [N]; nothing below relies on the bound, so the
    functions are defined, and the theorems hold, on every list. *)
Abbreviation js_string := (list N).

(** [js "abc"] is the JavaScript string with the code units of the ASCII
    literal. *)
Definition js (s : string) : js_string :=
  N_of_ascii <$> list_ascii_of_string s.

Module Char.
Definition backspace : N := 8.
Definition tab : N := 9.
Definition line_feed : N := 10.
Definition form_feed : N := 12.
Definition carriage_return : N := 13.
Definition space : N := 32.
Definition quote : N := 34.          (* the double quotation mark *)
Definition plus : N := 43.
Definition comma : N := 44.
Definition minus : N := 45.
Definition dot : N := 46.
Definition solidus : N := 47.
Definition zero : N := 48.
Definition nine : N := 57.
Definition colon : N := 58.
Definition upper_e : N := 69.
Definition lbracket : N := 91.
Definition backslash : N := 92.
Definition rbracket : N := 93.
Definition lower_b : N := 98.
Definition lower_e : N := 101.
Definition lower_f : N := 102.
Definition lower_n : N := 110.
Definition lower_r : N := 114.
Definition lower_t : N := 116.
Definition lower_u : N := 117.
Definition lbrace : N := 123.
Definition rbrace : N := 125.
End Char.

(** ** JSON values *)

(** The values [JSON.parse] returns.  A number is kept as the lexeme it was
    read from: the double it denotes is left to the platform (see
    [Platform] below).  An array element is [None] where the array has a
    hole, which [delete] can leave behind; the parser never produces one.
    The properties of an object are listed in the order
    [OrdinaryOwnPropertyKeys] enumerates them. *)
Unset Elimination Schemes.
Inductive json : Type :=
  | JNull
  | JBool (b : bool)
  | JNum (lexeme : js_string)
  | JStr (s : js_string)
  | JArr (elems : list (option json))
  | JObj (props : list (js_string * json)).
Set Elimination Schemes.

Abbreviation object := (list (js_string * json)).

(** *** Property order of ordinary objects *)

Definition is_digit (c : N) : bool := bool_decide (48 ≤ c ≤ 57)%N.

Definition digits_value (ds : js_string) : N :=
  foldl (λ n d, 10 * n + (d - 48))%N 0%N ds.

(** [array_index k] is [Some i] when the property key [k] is an array index:
    the canonical decimal numeral of an integer [i < 2^32 - 1]. *)
Definition array_index (k : js_string) : option N :=
  match k with
  | [] => None
  | c :: ds =>
    if forallb is_digit k && (bool_decide (c ≠ 48%N) || bool_decide (ds = []))
    then
      if bool_decide (length k ≤ 10) && bool_decide (digits_value k < 4294967295)%N
      then Some (digits_value k) else None
    else None
  end.

Fixpoint obj_get (k : js_string) (o : object) : option json :=
  match o with
  | [] => None
  | (k', v) :: o' => if decide (k' = k) then Some v else obj_get k o'
  end.

Fixpoint obj_replace (k : js_string) (v : json) (o : object) : object :=
  match o with
  | [] => []
  | (k', v') :: o' =>
    if decide (k' = k) then (k, v) :: o' else (k', v') :: obj_replace k v o'
  end.

(** A new array-index key goes before the first key that is not an array
    index or is a larger one. *)
Fixpoint obj_insert_index (i : N) (k : js_string) (v : json) (o : object)
  : object :=
  match o with
  | [] => [(k, v)]
  | (k', v') :: o' =>
    match array_index k' with
    | Some j =>
      if decide (i < j)%N then (k, v) :: o
      else (k', v') :: obj_insert_index i k v o'
    | None => (k, v) :: o
    end
  end.

(** [CreateDataProperty] on an ordinary object: an existing key keeps its
    place and takes the new value; a new array index is placed among the
    array indices in ascending order; any other new key goes last. *)
Definition obj_set (k : js_string) (v : json) (o : object) : object :=
  match obj_get k o with
  | Some _ => obj_replace k v o
  | None =>
    match array_index k with
    | Some i => obj_insert_index i k v o
    | None => o ++ [(k, v)]
    end
  end.

Definition obj_delete (k : js_string) (o : object) : object :=
  filter (λ kv, kv.1 ≠ k) o.

Definition obj_of_members (kvs : object) : object :=
  foldl (λ acc kv, obj_set kv.1 kv.2 acc) [] kvs.

(** *** JSON.parse *)

Definition is_json_ws (c : N) : bool :=
  bool_decide (c = Char.tab ∨ c = Char.line_feed ∨
               c = Char.carriage_return ∨ c = Char.space).

Fixpoint skip_ws (s : js_string) : js_string :=
  match s with
  | c :: s' => if is_json_ws c then skip_ws s' else s
  | [] => []
  end.

Definition hex_value (c : N) : option N :=
  if decide (48 ≤ c ≤ 57)%N then Some (c - 48)%N
  else if decide (97 ≤ c ≤ 102)%N then Some (c - 87)%N
  else if decide (65 ≤ c ≤ 70)%N then Some (c - 55)%N
  else None.

Definition unhex4 (h1 h2 h3 h4 : N) : option N :=
  a ← hex_value h1; b ← hex_value h2; c ← hex_value h3; d ← hex_value h4;
  Some (4096 * a + 256 * b + 16 * c + d)%N.

Definition escape_char (e : N) : option N :=
  if decide (e = Char.quote) then Some Char.quote
  else if decide (e = Char.backslash) then Some Char.backslash
  else if decide (e = Char.solidus) then Some Char.solidus
  else if decide (e = Char.lower_b) then Some Char.backspace
  else if decide (e = Char.lower_f) then Some Char.form_feed
  else if decide (e = Char.lower_n) then Some Char.line_feed
  else if decide (e = Char.lower_r) then Some Char.carriage_return
  else if decide (e = Char.lower_t) then Some Char.tab
  else None.

(** The characters of a string literal after its opening quotation mark, up
    to and including the closing one. *)
Fixpoint parse_string_chars (s : js_string) : option (js_string * js_string) :=
  match s with
  | [] => None
  | c :: s1 =>
    if decide (c = Char.quote) then Some ([], s1)
    else if decide (c = Char.backslash) then
      match s1 with
      | [] => None
      | e :: s2 =>
        if decide (e = Char.lower_u) then
          match s2 with
          | h1 :: h2 :: h3 :: h4 :: s3 =>
            u ← unhex4 h1 h2 h3 h4;
            '(cs, r) ← parse_string_chars s3;
            Some (u :: cs, r)
          | _ => None
          end
        else
          u ← escape_char e;
          '(cs, r) ← parse_string_chars s2;
          Some (u :: cs, r)
      end
    else if decide (c < 32)%N then None
    else '(cs, r) ← parse_string_chars s1; Some (c :: cs, r)
  end.

Fixpoint span_digits (s : js_string) : js_string * js_string :=
  match s with
  | c :: s' =>
    if is_digit c then let '(ds, r) := span_digits s' in (c :: ds, r)
    else ([], s)
  | [] => ([], [])
  end.

(** A JSON number: an optional minus sign; an integer part, which is a
    single zero or a non-zero digit followed by digits; an optional
    fraction, a dot and at least one digit; an optional exponent, [e] or
    [E], an optional sign and at least one digit. *)
Definition lex_int (s : js_string) : option (js_string * js_string) :=
  match s with
  | c :: s' =>
    if decide (c = Char.zero) then Some ([c], s')
    else if is_digit c then let '(ds, r) := span_digits s' in Some (c :: ds, r)
    else None
  | [] => None
  end.

Definition lex_frac (s : js_string) : option (js_string * js_string) :=
  match s with
  | c :: s' =>
    if decide (c = Char.dot) then
      match span_digits s' with
      | ([], _) => None
      | (ds, r) => Some (c :: ds, r)
      end
    else Some ([], s)
  | [] => Some ([], [])
  end.

Definition lex_sign (s : js_string) : js_string * js_string :=
  match s with
  | c :: s' =>
    if decide (c = Char.plus ∨ c = Char.minus) then ([c], s') else ([], s)
  | [] => ([], [])
  end.

Definition lex_exp (s : js_string) : option (js_string * js_string) :=
  match s with
  | c :: s' =>
    if decide (c = Char.lower_e ∨ c = Char.upper_e) then
      let '(sg, s'') := lex_sign s' in
      match span_digits s'' with
      | ([], _) => None
      | (ds, r) => Some (c :: sg ++ ds, r)
      end
    else Some ([], s)
  | [] => Some ([], [])
  end.

Definition lex_number (s : js_string) : option (js_string * js_string) :=
  let '(sg, s1) :=
    match s with
    | c :: s' => if decide (c = Char.minus) then ([c], s') else ([], s)
    | [] => ([], [])
    end in
  '(i, s2) ← lex_int s1;
  '(f, s3) ← lex_frac s2;
  '(e, s4) ← lex_exp s3;
  Some (sg ++ i ++ f ++ e, s4).

Fixpoint strip_prefix (p s : js_string) : option js_string :=
  match p, s with
  | [], _ => Some s
  | a :: p', b :: s' => if decide (a = b) then strip_prefix p' s' else None
  | _ :: _, [] => None
  end.

(** Recursive descent over the JSON grammar.  Each call takes one unit of
    [fuel], and at most two nested calls are made per code unit consumed, so
    [S (2 * length s)] units are enough for a text [s] (see
    [parse_value_fuel] below).  A result [None] is the [SyntaxError] of
    [JSON.parse]. *)
Fixpoint parse_value (fuel : nat) (s : js_string) : option (json * js_string) :=
  match fuel with
  | O => None
  | S fuel' =>
    match s with
    | [] => None
    | c :: s1 =>
      if decide (c = Char.lbrace) then
        match skip_ws s1 with
        | [] => None
        | d :: s2 =>
          if decide (d = Char.rbrace) then Some (JObj [], s2)
          else '(kvs, r) ← parse_members fuel' (d :: s2);
               Some (JObj (obj_of_members kvs), r)
        end
      else if decide (c = Char.lbracket) then
        match skip_ws s1 with
        | [] => None
        | d :: s2 =>
          if decide (d = Char.rbracket) then Some (JArr [], s2)
          else '(vs, r) ← parse_elements fuel' (d :: s2);
               Some (JArr (Some <$> vs), r)
        end
      else if decide (c = Char.quote) then
        '(str, r) ← parse_string_chars s1; Some (JStr str, r)
      else if decide (c = Char.lower_t) then
        r ← strip_prefix (js "rue") s1; Some (JBool true, r)
      else if decide (c = Char.lower_f) then
        r ← strip_prefix (js "alse") s1; Some (JBool false, r)
      else if decide (c = Char.lower_n) then
        r ← strip_prefix (js "ull") s1; Some (JNull, r)
      else
        '(lexeme, r) ← lex_number s; Some (JNum lexeme, r)
    end
  end
with parse_members (fuel : nat) (s : js_string) : option (object * js_string) :=
  match fuel with
  | O => None
  | S fuel' =>
    match s with
    | [] => None
    | c :: s1 =>
      if decide (c = Char.quote) then
        '(k, s2) ← parse_string_chars s1;
        match skip_ws s2 with
        | [] => None
        | d :: s3 =>
          if decide (d = Char.colon) then
            '(v, s4) ← parse_value fuel' (skip_ws s3);
            match skip_ws s4 with
            | [] => None
            | e :: s5 =>
              if decide (e = Char.comma) then
                '(kvs, r) ← parse_members fuel' (skip_ws s5);
                Some ((k, v) :: kvs, r)
              else if decide (e = Char.rbrace) then Some ([(k, v)], s5)
              else None
            end
          else None
        end
      else None
    end
  end
with parse_elements (fuel : nat) (s : js_string) : option (list json * js_string) :=
  match fuel with
  | O => None
  | S fuel' =>
    '(v, s1) ← parse_value fuel' s;
    match skip_ws s1 with
    | [] => None
    | e :: s2 =>
      if decide (e = Char.comma) then
        '(vs, r) ← parse_elements fuel' (skip_ws s2);
        Some (v :: vs, r)
      else if decide (e = Char.rbracket) then Some ([v], s2)
      else None
    end
  end.

(** [JSON_parse s] is [None] when [JSON.parse(s)] throws a [SyntaxError]. *)
Definition JSON_parse (s : js_string) : option json :=
  match parse_value (S (2 * length s)) (skip_ws s) with
  | Some (v, r) => match skip_ws r with [] => Some v | _ :: _ => None end
  | None => None
  end.

(** *** JSON.stringify *)

Definition hex_digit (d : N) : N :=
  if decide (d < 10)%N then (48 + d)%N else (87 + d)%N.

Definition hex4 (c : N) : js_string :=
  [hex_digit (c / 4096 mod 16); hex_digit (c / 256 mod 16);
   hex_digit (c / 16 mod 16); hex_digit (c mod 16)]%N.

Definition unicode_escape (c : N) : js_string :=
  Char.backslash :: Char.lower_u :: hex4 c.

Definition is_high_surrogate (c : N) : bool := bool_decide (55296 ≤ c ≤ 56319)%N.
Definition is_low_surrogate (c : N) : bool := bool_decide (56320 ≤ c ≤ 57343)%N.

(** The escape [QuoteJSONString] writes for one code unit that is not part
    of a surrogate pair. *)
Definition quote_unit (c : N) : js_string :=
  if decide (c = Char.backspace) then [Char.backslash; Char.lower_b]
  else if decide (c = Char.tab) then [Char.backslash; Char.lower_t]
  else if decide (c = Char.line_feed) then [Char.backslash; Char.lower_n]
  else if decide (c = Char.form_feed) then [Char.backslash; Char.lower_f]
  else if decide (c = Char.carriage_return) then [Char.backslash; Char.lower_r]
  else if decide (c = Char.quote) then [Char.backslash; Char.quote]
  else if decide (c = Char.backslash) then [Char.backslash; Char.backslash]
  else if decide (c < 32)%N then unicode_escape c
  else if is_high_surrogate c || is_low_surrogate c then unicode_escape c
  else [c].

Fixpoint quote_chars (s : js_string) : js_string :=
  match s with
  | [] => []
  | c :: s1 =>
    match s1 with
    | d :: s2 =>
      if is_high_surrogate c && is_low_surrogate d
      then c :: d :: quote_chars s2
      else quote_unit c ++ quote_chars s1
    | [] => quote_unit c
    end
  end.

Definition quote_json_string (s : js_string) : js_string :=
  Char.quote :: quote_chars s ++ [Char.quote].

Fixpoint join (sep : js_string) (parts : list js_string) : js_string :=
  match parts with
  | [] => []
  | [p] => p
  | p :: ps => p ++ sep ++ join sep ps
  end.

(** ** The platform *)

(** What the handlers take from the JavaScript platform and this file does
    not compute: the double a number lexeme denotes (whether it is truthy,
    how [ToString] and [JSON.stringify] print it), and the names a value
    inherits from its prototype chain.  No standard prototype has a member
    called [ip], [user], [port] or [keyPath]. *)
Definition profile_fields : list js_string :=
  [js "ip"; js "user"; js "port"; js "keyPath"].

Class Platform := {
  number_to_boolean : js_string → bool;
  number_to_string : js_string → js_string;
  number_to_json : js_string → js_string;
  inherited : json → js_string → bool;
  inherited_profile_field v k : k ∈ profile_fields → inherited v k = false
}.

Section Stringify.
Context `{Platform}.

(** [JSON.stringify(v)] without replacer or indentation.  A hole prints as
    [null], and so does a number that is not finite (inside
    [number_to_json]). *)
Fixpoint JSON_stringify (v : json) : js_string :=
  match v with
  | JNull => js "null"
  | JBool b => if b then js "true" else js "false"
  | JNum x => number_to_json x
  | JStr s => quote_json_string s
  | JArr l =>
    Char.lbracket ::
    join [Char.comma]
      ((λ e, match e with
             | Some x => JSON_stringify x
             | None => js "null"
             end) <$> l) ++ [Char.rbracket]
  | JObj o =>
    Char.lbrace ::
    join [Char.comma]
      ((λ '(k, x), quote_json_string k ++ Char.colon :: JSON_stringify x) <$> o)
    ++ [Char.rbrace]
  end.
End Stringify.

(** ** The language operations the handlers use *)

Inductive js_error := SyntaxError | TypeError.

Inductive completion (A : Type) :=
  | Normal (a : A)
  | Throw (e : js_error).
Arguments Normal {A} a.
Arguments Throw {A} e.

(** What a property read yields: [undefined], a member of a built-in
    prototype (a function or a prototype object: truthy, and without any
    profile field), or a value of the parsed data. *)
Inductive js_value :=
  | Undefined
  | Builtin
  | Val (v : json).

Definition decimal (n : N) : js_string :=
  js (DecimalString.NilZero.string_of_uint (N.to_uint n)).

Definition get_own (v : json) (k : js_string) : option json :=
  match v with
  | JObj o => obj_get k o
  | JArr l =>
    if decide (k = js "length") then Some (JNum (decimal (N.of_nat (length l))))
    else i ← array_index k; mjoin (l !! N.to_nat i)
  | JStr s =>
    if decide (k = js "length") then Some (JNum (decimal (N.of_nat (length s))))
    else i ← array_index k; c ← s !! N.to_nat i; Some (JStr [c])
  | JNull | JBool _ | JNum _ => None
  end.

(** [delete v[k]] in strict code, as a new value of [v]. *)
Definition js_delete (v : json) (k : js_string) : completion json :=
  match v with
  | JNull => Throw TypeError
  | JObj o => Normal (JObj (obj_delete k o))
  | JArr l =>
    if decide (k = js "length") then Throw TypeError
    else match array_index k with
         | Some i => Normal (JArr (<[N.to_nat i := None]> l))
         | None => Normal v
         end
  | JStr s =>
    if decide (k = js "length") then Throw TypeError
    else match array_index k with
         | Some i =>
           if decide (N.to_nat i < length s) then Throw TypeError else Normal v
         | None => Normal v
         end
  | JBool _ | JNum _ => Normal v
  end.

(** The own enumerable properties [{...v}] copies. *)
Definition own_enumerable (v : json) : object :=
  match v with
  | JObj o => o
  | JArr l =>
    omap id (imap (λ i e, (λ x, (decimal (N.of_nat i), x)) <$> e) l)
  | JStr s => imap (λ i c, (decimal (N.of_nat i), JStr [c])) s
  | JNull | JBool _ | JNum _ => []
  end.

Definition object_spread (v : json) : object :=
  obj_of_members (own_enumerable v).

Section Coercions.
Context `{Platform}.

Definition to_boolean (v : json) : bool :=
  match v with
  | JNull => false
  | JBool b => b
  | JNum x => number_to_boolean x
  | JStr s => bool_decide (s ≠ [])
  | JArr _ | JObj _ => true
  end.

Definition truthy (x : js_value) : bool :=
  match x with
  | Undefined => false
  | Builtin => true
  | Val v => to_boolean v
  end.

(** [v[k]]: a [TypeError] on [null]; an own property; else what the
    prototype chain has under that name. *)
Definition js_get (v : json) (k : js_string) : completion js_value :=
  match v with
  | JNull => Throw TypeError
  | _ =>
    match get_own v k with
    | Some x => Normal (Val x)
    | None => Normal (if inherited v k then Builtin else Undefined)
    end
  end.

(** [data.f], where [data] is the result of a property read. *)
Definition get_field (data : js_value) (f : js_string) : completion js_value :=
  match data with
  | Val v => js_get v f
  | Builtin => Normal Undefined
  | Undefined => Throw TypeError
  end.

(** [x || d] where [d] is a string. *)
Definition or_default (x : js_value) (d : js_string) : json :=
  match x with
  | Val v => if to_boolean v then v else JStr d
  | Builtin | Undefined => JStr d
  end.

(** [ToString(v)], as a template literal applies it.  A primitive is
    printed.  An object goes through [OrdinaryToPrimitive]: with an own
    property [toString], which in parsed data is never callable, neither it
    nor [valueOf] yields a primitive and a [TypeError] is thrown; without
    one, [Object.prototype.toString] gives [[object Object]].  An array is
    printed by [Array.prototype.join]: its elements in order, separated by
    commas, a hole, [undefined] or [null] as the empty string, and the
    first element that cannot be printed throws. *)
Fixpoint to_string (v : json) : completion js_string :=
  match v with
  | JNull => Normal (js "null")
  | JBool b => Normal (if b then js "true" else js "false")
  | JNum x => Normal (number_to_string x)
  | JStr s => Normal s
  | JArr l =>
    match
      (fix elements (l : list (option json)) : completion (list js_string) :=
         match l with
         | [] => Normal []
         | e :: l' =>
           match match e with
                 | Some JNull | None => Normal []
                 | Some x => to_string x
                 end with
           | Normal s =>
             match elements l' with
             | Normal ss => Normal (s :: ss)
             | Throw err => Throw err
             end
           | Throw err => Throw err
           end
         end) l
    with
    | Normal parts => Normal (join [Char.comma] parts)
    | Throw err => Throw err
    end
  | JObj o =>
    match obj_get (js "toString") o with
    | Some _ => Throw TypeError
    | None => Normal (js "[object Object]")
    end
  end.
End Coercions.

(** [String.prototype.trim] strips white space and line terminators. *)
Definition is_trim_space (c : N) : bool :=
  bool_decide (c ∈ [9; 10; 11; 12; 13; 32; 160; 5760; 8232; 8233; 8239;
                    8287; 12288; 65279]%N ∨ (8192 ≤ c ≤ 8202)%N).

Fixpoint trim_start (s : js_string) : js_string :=
  match s with
  | c :: s' => if is_trim_space c then trim_start s' else s
  | [] => []
  end.

Definition trim (s : js_string) : js_string :=
  reverse (trim_start (reverse (trim_start s))).

(** [s.split(sep)] for a separator of one code unit. *)
Fixpoint split (sep : N) (s : js_string) : list js_string :=
  match s with
  | [] => [[]]
  | c :: s' =>
    if decide (c = sep) then [] :: split sep s'
    else match split sep s' with
         | p :: ps => (c :: p) :: ps
         | [] => [[c]]
         end
  end.

(** ** The component [App] *)

(** The three code blocks [handleGenerateInstructions] puts in the modal. *)
Record Instructions := {
  publicKeyPath : js_string;
  debianCommands : js_string;
  removeHostKeyCommand : js_string
}.

(** The state [App] holds: the browser's [localStorage], the React state
    variables of the component (the theme [mode] apart), and the messages
    shown with [alert], oldest first.  The four connection fields are typed
    by the user as strings, and [handleLoadConfig] can put any parsed value
    in them. *)
Record AppState := {
  localStorage : gmap js_string js_string;
  configs : json;
  selectedConfig : js_string;
  configName : js_string;
  pixelIp : json;
  pixelUser : json;
  sshPort : json;
  sshKeyPaths : js_string;
  availableKeys : list js_string;
  selectedKey : json;
  isModalOpen : bool;
  modalContent : option Instructions;
  alerts : list js_string
}.

Definition useState_initial (ls : gmap js_string js_string) : AppState := {|
  localStorage := ls;
  configs := JObj [];
  selectedConfig := [];
  configName := [];
  pixelIp := JStr [];
  pixelUser := JStr [];
  sshPort := JStr (js "22");
  sshKeyPaths := [];
  availableKeys := [];
  selectedKey := JStr [];
  isModalOpen := false;
  modalContent := None;
  alerts := []
|}.

Definition with_localStorage (x : gmap js_string js_string) (st : AppState) :=
  {| localStorage := x; configs := configs st;
     selectedConfig := selectedConfig st; configName := configName st;
     pixelIp := pixelIp st; pixelUser := pixelUser st; sshPort := sshPort st;
     sshKeyPaths := sshKeyPaths st; availableKeys := availableKeys st;
     selectedKey := selectedKey st; isModalOpen := isModalOpen st;
     modalContent := modalContent st; alerts := alerts st |}.

Definition with_configs (x : json) (st : AppState) :=
  {| localStorage := localStorage st; configs := x;
     selectedConfig := selectedConfig st; configName := configName st;
     pixelIp := pixelIp st; pixelUser := pixelUser st; sshPort := sshPort st;
     sshKeyPaths := sshKeyPaths st; availableKeys := availableKeys st;
     selectedKey := selectedKey st; isModalOpen := isModalOpen st;
     modalContent := modalContent st; alerts := alerts st |}.

Definition with_selectedConfig (x : js_string) (st : AppState) :=
  {| localStorage := localStorage st; configs := configs st;
     selectedConfig := x; configName := configName st;
     pixelIp := pixelIp st; pixelUser := pixelUser st; sshPort := sshPort st;
     sshKeyPaths := sshKeyPaths st; availableKeys := availableKeys st;
     selectedKey := selectedKey st; isModalOpen := isModalOpen st;
     modalContent := modalContent st; alerts := alerts st |}.

Definition with_configName (x : js_string) (st : AppState) :=
  {| localStorage := localStorage st; configs := configs st;
     selectedConfig := selectedConfig st; configName := x;
     pixelIp := pixelIp st; pixelUser := pixelUser st; sshPort := sshPort st;
     sshKeyPaths := sshKeyPaths st; availableKeys := availableKeys st;
     selectedKey := selectedKey st; isModalOpen := isModalOpen st;
     modalContent := modalContent st; alerts := alerts st |}.

Definition with_pixelIp (x : json) (st : AppState) :=
  {| localStorage := localStorage st; configs := configs st;
     selectedConfig := selectedConfig st; configName := configName st;
     pixelIp := x; pixelUser := pixelUser st; sshPort := sshPort st;
     sshKeyPaths := sshKeyPaths st; availableKeys := availableKeys st;
     selectedKey := selectedKey st; isModalOpen := isModalOpen st;
     modalContent := modalContent st; alerts := alerts st |}.

Definition with_pixelUser (x : json) (st : AppState) :=
  {| localStorage := localStorage st; configs := configs st;
     selectedConfig := selectedConfig st; configName := configName st;
     pixelIp := pixelIp st; pixelUser := x; sshPort := sshPort st;
     sshKeyPaths := sshKeyPaths st; availableKeys := availableKeys st;
     selectedKey := selectedKey st; isModalOpen := isModalOpen st;
     modalContent := modalContent st; alerts := alerts st |}.

Definition with_sshPort (x : json) (st : AppState) :=
  {| localStorage := localStorage st; configs := configs st;
     selectedConfig := selectedConfig st; configName := configName st;
     pixelIp := pixelIp st; pixelUser := pixelUser st; sshPort := x;
     sshKeyPaths := sshKeyPaths st; availableKeys := availableKeys st;
     selectedKey := selectedKey st; isModalOpen := isModalOpen st;
     modalContent := modalContent st; alerts := alerts st |}.

Definition with_sshKeyPaths (x : js_string) (st : AppState) :=
  {| localStorage := localStorage st; configs := configs st;
     selectedConfig := selectedConfig st; configName := configName st;
     pixelIp := pixelIp st; pixelUser := pixelUser st; sshPort := sshPort st;
     sshKeyPaths := x; availableKeys := availableKeys st;
     selectedKey := selectedKey st; isModalOpen := isModalOpen st;
     modalContent := modalContent st; alerts := alerts st |}.

Definition with_availableKeys (x : list js_string) (st : AppState) :=
  {| localStorage := localStorage st; configs := configs st;
     selectedConfig := selectedConfig st; configName := configName st;
     pixelIp := pixelIp st; pixelUser := pixelUser st; sshPort := sshPort st;
     sshKeyPaths := sshKeyPaths st; availableKeys := x;
     selectedKey := selectedKey st; isModalOpen := isModalOpen st;
     modalContent := modalContent st; alerts := alerts st |}.

Definition with_selectedKey (x : json) (st : AppState) :=
  {| localStorage := localStorage st; configs := configs st;
     selectedConfig := selectedConfig st; configName := configName st;
     pixelIp := pixelIp st; pixelUser := pixelUser st; sshPort := sshPort st;
     sshKeyPaths := sshKeyPaths st; availableKeys := availableKeys st;
     selectedKey := x; isModalOpen := isModalOpen st;
     modalContent := modalContent st; alerts := alerts st |}.

Definition with_isModalOpen (x : bool) (st : AppState) :=
  {| localStorage := localStorage st; configs := configs st;
     selectedConfig := selectedConfig st; configName := configName st;
     pixelIp := pixelIp st; pixelUser := pixelUser st; sshPort := sshPort st;
     sshKeyPaths := sshKeyPaths st; availableKeys := availableKeys st;
     selectedKey := selectedKey st; isModalOpen := x;
     modalContent := modalContent st; alerts := alerts st |}.

Definition with_modalContent (x : option Instructions) (st : AppState) :=
  {| localStorage := localStorage st; configs := configs st;
     selectedConfig := selectedConfig st; configName := configName st;
     pixelIp := pixelIp st; pixelUser := pixelUser st; sshPort := sshPort st;
     sshKeyPaths := sshKeyPaths st; availableKeys := availableKeys st;
     selectedKey := selectedKey st; isModalOpen := isModalOpen st;
     modalContent := x; alerts := alerts st |}.

Definition with_alerts (x : list js_string) (st : AppState) :=
  {| localStorage := localStorage st; configs := configs st;
     selectedConfig := selectedConfig st; configName := configName st;
     pixelIp := pixelIp st; pixelUser := pixelUser st; sshPort := sshPort st;
     sshKeyPaths := sshKeyPaths st; availableKeys := availableKeys st;
     selectedKey := selectedKey st; isModalOpen := isModalOpen st;
     modalContent := modalContent st; alerts := x |}.

(** *** Handlers as state transformers that may throw *)

(** A handler runs on the state and either completes or throws; the state
    it leaves holds the writes made up to that point. *)
Definition Handler (A : Type) : Type := AppState → completion A * AppState.

Definition ret {A} (a : A) : Handler A := λ st, (Normal a, st).

Definition bind {A B} (m : Handler A) (k : A → Handler B) : Handler B :=
  λ st, match m st with
        | (Normal a, st') => k a st'
        | (Throw e, st') => (Throw e, st')
        end.

Definition throw {A} (e : js_error) : Handler A := λ st, (Throw e, st).
Definition modify (f : AppState → AppState) : Handler unit :=
  λ st, (Normal (), f st).
Definition lift {A} (c : completion A) : Handler A := λ st, (c, st).

Notation "'let*' x ':=' m 'in' k" := (bind m (λ x, k))
  (at level 10, x name, m at level 100, k at level 200,
   format "'[v' 'let*'  x  ':='  m  'in' '/' k ']'").
Notation "m ';;;' k" := (bind m (λ _, k))
  (at level 100, k at level 200, right associativity,
   format "'[v' m  ';;;' '/' k ']'").

Definition slot : js_string := js "ssh-vnc-configs-mui".

Definition getItem (key : js_string) : Handler (option js_string) :=
  λ st, (Normal (localStorage st !! key), st).
Definition setItem (key value : js_string) : Handler unit :=
  modify (λ st, with_localStorage (<[key := value]> (localStorage st)) st).

Definition JSON_parse_or_throw (s : js_string) : Handler json :=
  match JSON_parse s with
  | Some v => ret v
  | None => throw SyntaxError
  end.

(** [saved ? JSON.parse(saved) : {}]: [null] and the empty string are
    falsy. *)
Definition parse_saved (saved : option js_string) : Handler json :=
  match saved with
  | Some (c :: s) => JSON_parse_or_throw (c :: s)
  | Some [] | None => ret (JObj [])
  end.

Definition loadConfigsFromStorage : Handler json :=
  let* saved := getItem slot in
  let* parsed := parse_saved saved in
  modify (with_configs parsed) ;;;
  ret parsed.

(** The effect [App] runs once after mounting (lines 127-130). *)
Definition initialLoadEffect : Handler unit :=
  let* savedConfigs := getItem slot in
  match savedConfigs with
  | Some (c :: s) =>
    let* parsed := JSON_parse_or_throw (c :: s) in
    modify (with_configs parsed)
  | Some [] | None => ret ()
  end.

(** The effect that follows [sshKeyPaths] (lines 132-135). *)
Definition availableKeysEffect : Handler unit :=
  λ st,
    let paths :=
      filter (λ p, 0 < length p) (split Char.line_feed (trim (sshKeyPaths st)))
    in modify (with_availableKeys paths) st.

Section Handlers.
Context `{Platform}.

Definition handleLoadConfig : Handler unit :=
  λ st,
    (if bool_decide (selectedConfig st = []) then ret ()
     else
       let* parsed := loadConfigsFromStorage in
       let* data := lift (js_get parsed (selectedConfig st)) in
       if truthy data then
         modify (with_configName (selectedConfig st)) ;;;
         let* ip := lift (get_field data (js "ip")) in
         modify (with_pixelIp (or_default ip [])) ;;;
         let* user := lift (get_field data (js "user")) in
         modify (with_pixelUser (or_default user [])) ;;;
         let* port := lift (get_field data (js "port")) in
         modify (with_sshPort (or_default port (js "22"))) ;;;
         let* keyPath := lift (get_field data (js "keyPath")) in
         modify (with_selectedKey (or_default keyPath []))
       else ret ()) st.

(** The object literal [{ ip: .., user: .., port: .., keyPath: .. }]. *)
Definition profile_object (ip user port keyPath : json) : object :=
  obj_of_members
    [(js "ip", ip); (js "user", user); (js "port", port);
     (js "keyPath", keyPath)].

Definition handleSaveConfig : Handler unit :=
  λ st,
    (if bool_decide (configName st = []) then ret ()
     else
       let* currentConfigs := loadConfigsFromStorage in
       let newConfigs :=
         JObj (obj_set (configName st)
                 (JObj (profile_object (pixelIp st) (pixelUser st)
                          (sshPort st) (selectedKey st)))
                 (object_spread currentConfigs)) in
       setItem slot (JSON_stringify newConfigs) ;;;
       modify (with_configs newConfigs) ;;;
       modify (λ s, with_alerts
                 (alerts s ++ [js "Saved '" ++ configName st ++ js "'"]) s)) st.

(** [confirmed] is the answer the user gives to [confirm]; the dialog is
    shown only when a configuration is selected. *)
Definition handleDeleteConfig (confirmed : bool) : Handler unit :=
  λ st,
    (if bool_decide (selectedConfig st = []) || negb confirmed then ret ()
     else
       let* currentConfigs := loadConfigsFromStorage in
       let* currentConfigs := lift (js_delete currentConfigs (selectedConfig st)) in
       setItem slot (JSON_stringify currentConfigs) ;;;
       modify (with_configs currentConfigs) ;;;
       modify (with_configName []) ;;;
       modify (with_selectedConfig [])) st.

Definition debianCommandsText : js_string :=
  join [Char.line_feed]
    [js "# 1. Install & Enable SSH";
     js "sudo apt update && sudo apt install -y openssh-server";
     js "sudo systemctl enable ssh --now";
     Char.line_feed :: js "# 2. Add Your Public Key";
     js "echo 'PASTE_PUBLIC_KEY_HERE' >> ~/.ssh/authorized_keys";
     Char.line_feed :: js "# 3. Set Permissions";
     js "chmod 700 ~/.ssh && chmod 600 ~/.ssh/authorized_keys"].

Definition handleGenerateInstructions : Handler unit :=
  λ st,
    (if negb (to_boolean (pixelIp st)) || negb (to_boolean (pixelUser st))
        || negb (to_boolean (sshPort st)) || negb (to_boolean (selectedKey st))
     then ret ()
     else
       let* key := lift (to_string (selectedKey st)) in
       let* ip := lift (to_string (pixelIp st)) in
       let content :=
         {| publicKeyPath := js "cat " ++ key ++ js ".pub";
            debianCommands := debianCommandsText;
            removeHostKeyCommand := js "ssh-keygen -R " ++ ip |} in
       modify (with_modalContent (Some content)) ;;;
       modify (with_isModalOpen true)) st.
End Handlers.

(** ** Induction on JSON values *)

Section json_induction.
Variable P : json → Prop.
Hypothesis Hnull : P JNull.
Hypothesis Hbool : ∀ b, P (JBool b).
Hypothesis Hnum : ∀ x, P (JNum x).
Hypothesis Hstr : ∀ s, P (JStr s).
Hypothesis Harr : ∀ l, Forall (from_option P True) l → P (JArr l).
Hypothesis Hobj : ∀ o, Forall (λ kv, P kv.2) o → P (JObj o).

Fixpoint json_ind (v : json) : P v :=
  match v with
  | JNull => Hnull
  | JBool b => Hbool b
  | JNum x => Hnum x
  | JStr s => Hstr s
  | JArr l =>
    Harr l
      ((fix elems (l : list (option json)) :=
          match l return Forall (from_option P True) l with
          | [] => List.Forall_nil _
          | e :: l' =>
            List.Forall_cons _ e l'
              (match e return from_option P True e with
               | Some y => json_ind y
               | None => I
               end)
              (elems l')
          end) l)
  | JObj o =>
    Hobj o
      ((fix props (o : object) :=
          match o return Forall (λ kv, P kv.2) o with
          | [] => List.Forall_nil _
          | kv :: o' => List.Forall_cons _ kv o' (json_ind kv.2) (props o')
          end) o)
  end.
End json_induction.

(** ** Definitions used in the statements *)

Definition unhex (hs : js_string) : option N :=
  match hs with
  | [h1; h2; h3; h4] => unhex4 h1 h2 h3 h4
  | _ => None
  end.


(** *** Objects in the order the platform keeps them *)

(** [key_leb k1 k2]: the key [k1] may come before [k2] in an ordinary
    object: array indices come first, in ascending order. *)
Definition key_leb (k1 k2 : js_string) : bool :=
  match array_index k2 with
  | Some j =>
    match array_index k1 with
    | Some i => bool_decide (i ≤ j)%N
    | None => false
    end
  | None => true
  end.

(** The keys of an object are pairwise distinct and in property order. *)
Fixpoint keys_wf (ks : list js_string) : bool :=
  match ks with
  | [] => true
  | k :: ks' => bool_decide (k ∉ ks') && forallb (key_leb k) ks' && keys_wf ks'
  end.

(** The values the store can hold and that are written back as they were
    read: no hole, every object with well-formed keys, and no number (a
    number is written back through the double it denotes, which this file
    leaves to the platform). *)
Fixpoint storable (v : json) : bool :=
  match v with
  | JNull | JBool _ | JStr _ => true
  | JNum _ => false
  | JArr l =>
    forallb (λ e, match e with Some x => storable x | None => false end) l
  | JObj o => keys_wf (o.*1) && forallb (λ kv, storable kv.2) o
  end.

(** *** Reading back what was written *)

(** [parses_back v]: the text [JSON.stringify] writes for [v], followed by
    anything, is read as [v], with any fuel above twice its length. *)
Definition parses_back `{Platform} (v : json) : Prop :=
  ∀ fuel rest, 2 * length (JSON_stringify v) < fuel →
    parse_value fuel (JSON_stringify v ++ rest) = Some (v, rest).

(** *** The store *)

(** What [loadConfigsFromStorage] finds in the slot: the empty mapping when
    the slot is absent or empty, else the parsed text; [None] when the text
    does not parse. *)
Definition persisted (st : AppState) : option json :=
  match localStorage st !! slot with
  | Some (c :: s) => JSON_parse (c :: s)
  | Some [] | None => Some (JObj [])
  end.

(** The store holds the mapping [o]: the slot reads as the object [o], whose
    entries are storable. *)
Definition store_holds (st : AppState) (o : object) : Prop :=
  persisted st = Some (JObj o) ∧ storable (JObj o) = true.

(** The invariant of the data model: no configuration is named by the
    empty string. *)
Definition names_nonempty (o : object) : Prop := Forall (λ k, k ≠ []) (o.*1).

Definition form_storable (st : AppState) : Prop :=
  storable (pixelIp st) = true ∧ storable (pixelUser st) = true ∧
  storable (sshPort st) = true ∧ storable (selectedKey st) = true.

Definition app_inv (st : AppState) : Prop :=
  form_storable st ∧ ∃ o, store_holds st o ∧ names_nonempty o.

(** [is_substring sub s]: [sub] occurs in [s]. *)
Definition is_substring (sub s : js_string) : Prop :=
  ∃ pre post, s = pre ++ sub ++ post.

(** *** The states the handlers leave *)

Section States.
Context `{Platform}.

(** The state after [handleSaveConfig] wrote the object [o]. *)
Definition saved_state (st : AppState) (o : object) : AppState :=
  with_alerts (alerts st ++ [js "Saved '" ++ configName st ++ js "'"])
    (with_configs (JObj o)
       (with_localStorage (<[slot := JSON_stringify (JObj o)]> (localStorage st))
          st)).

(** The state after [handleDeleteConfig] wrote the object [o]. *)
Definition deleted_state (st : AppState) (o : object) : AppState :=
  with_selectedConfig []
    (with_configName []
       (with_configs (JObj o)
          (with_localStorage
             (<[slot := JSON_stringify (JObj o)]> (localStorage st)) st))).

(** The state after [handleLoadConfig] read the value [v] and took the
    four fields from its entry. *)
Definition loaded_state (st : AppState) (v : json) (ip user port keyPath : js_value)
  : AppState :=
  with_selectedKey (or_default keyPath [])
    (with_sshPort (or_default port (js "22"))
       (with_pixelUser (or_default user [])
          (with_pixelIp (or_default ip [])
             (with_configName (selectedConfig st) (with_configs v st))))).
End States.

(** *** What the user can do *)

(** The events of the page: edits of the form ([onChange] of the inputs and
    selects) and clicks on the buttons. *)
Inductive event :=
  | SelectConfig (name : js_string)
  | TypeConfigName (s : js_string)
  | TypePixelIp (s : js_string)
  | TypePixelUser (s : js_string)
  | TypeSshPort (s : js_string)
  | TypeSshKeyPaths (s : js_string)
  | SelectKey (s : js_string)
  | ClickLoad
  | ClickSave
  | ClickDelete (confirmed : bool)
  | ClickGenerate
  | CloseModal.

Definition handle `{Platform} (e : event) : Handler unit :=
  match e with
  | SelectConfig name => modify (with_selectedConfig name)
  | TypeConfigName s => modify (with_configName s)
  | TypePixelIp s => modify (with_pixelIp (JStr s))
  | TypePixelUser s => modify (with_pixelUser (JStr s))
  | TypeSshPort s => modify (with_sshPort (JStr s))
  | TypeSshKeyPaths s => modify (with_sshKeyPaths s) ;;; availableKeysEffect
  | SelectKey s => modify (with_selectedKey (JStr s))
  | ClickLoad => handleLoadConfig
  | ClickSave => handleSaveConfig
  | ClickDelete confirmed => handleDeleteConfig confirmed
  | ClickGenerate => handleGenerateInstructions
  | CloseModal => modify (with_isModalOpen false)
  end.

(** Events are handled one after the other; the first exception ends the
    run. *)
Fixpoint handle_all `{Platform} (es : list event) : Handler unit :=
  match es with
  | [] => ret ()
  | e :: es' => handle e ;;; handle_all es'
  end.

(** *** A platform to evaluate on *)

(** The members of [Object.prototype]. *)
Definition object_prototype_names : list js_string :=
  [js "constructor"; js "hasOwnProperty"; js "isPrototypeOf";
   js "propertyIsEnumerable"; js "toLocaleString"; js "toString";
   js "valueOf"; js "__proto__"; js "__defineGetter__";
   js "__defineSetter__"; js "__lookupGetter__"; js "__lookupSetter__"].

(** A number is truthy when its lexeme has a non-zero digit before the
    exponent. *)
Fixpoint lexeme_nonzero (x : js_string) : bool :=
  match x with
  | [] => false
  | c :: x' =>
    if bool_decide (c = Char.lower_e ∨ c = Char.upper_e) then false
    else bool_decide (49 ≤ c ≤ 57)%N || lexeme_nonzero x'
  end.

Lemma lexeme_platform_profile_field (k : js_string) :
  k ∈ profile_fields → bool_decide (k ∈ object_prototype_names) = false.
Proof.
  intros Hk. apply bool_decide_eq_false. intros Hin.
  assert (Hdisj : bool_decide
            (Forall (λ f, f ∉ object_prototype_names) profile_fields) = true)
    by (vm_compute; reflexivity).
  apply bool_decide_eq_true in Hdisj.
  rewrite Forall_forall in Hdisj. by apply (Hdisj k).
Qed.

(** A platform that keeps a number as the decimal numeral it was read from
    and gives every value the members of [Object.prototype] only.  It
    agrees with a browser wherever no number is read and no name of another
    prototype is asked for, which is the case in every evaluation below. *)
Definition lexeme_platform : Platform := {|
  number_to_boolean := lexeme_nonzero;
  number_to_string x := x;
  number_to_json x := x;
  inherited _ k := bool_decide (k ∈ object_prototype_names);
  inherited_profile_field _ k := lexeme_platform_profile_field k
|}.

(** The form filled in with a name and the four fields of a profile. *)
Definition fill_form (name ip user port keyPath : js_string) (st : AppState)
  : AppState :=
  with_selectedKey (JStr keyPath)
    (with_sshPort (JStr port)
       (with_pixelUser (JStr user)
          (with_pixelIp (JStr ip) (with_configName name st)))).

(** *** Lines of a text, in the words of the specification *)

(** [t] is [s] without the white space at its two ends. *)
Definition is_trimmed (t s : js_string) : Prop :=
  ∃ pre post, s = pre ++ t ++ post
    ∧ forallb is_trim_space pre = true ∧ forallb is_trim_space post = true
    ∧ (∀ c, head t = Some c → is_trim_space c = false)
    ∧ (∀ c, last t = Some c → is_trim_space c = false).

(** [ls] are the lines of [s]: the pieces between its line feeds. *)
Definition is_lines (ls : list js_string) (s : js_string) : Prop :=
  ls ≠ [] ∧ join [Char.line_feed] ls = s
  ∧ Forall (λ l, Char.line_feed ∉ l) ls.


(** ** The rest of the component *)

(** *** What a handler may write *)

(** [writes_only_slot h]: the handler [h], whether it completes or throws,
    leaves every key of [localStorage] other than the slot as it was. *)
Definition writes_only_slot {A} (h : Handler A) : Prop :=
  ∀ st key, key ≠ slot → localStorage (h st).2 !! key = localStorage st !! key.

(** [keeps_storage h]: the handler [h] does not write [localStorage]. *)
Definition keeps_storage {A} (h : Handler A) : Prop :=
  ∀ st, localStorage (h st).2 = localStorage st.

(** The in-memory [configs] is what the slot reads as. *)
Definition synced (st : AppState) : Prop := persisted st = Some (configs st).

(** *** The menu of saved configurations (line 229) *)

(** [Object.keys(v)]: a [TypeError] on [null]; else the own enumerable
    string keys, in property order. *)
Definition Object_keys (v : json) : completion (list js_string) :=
  match v with
  | JNull => Throw TypeError
  | _ => Normal ((own_enumerable v).*1)
  end.

(** The order of [Array.prototype.sort] without a comparator: strings are
    compared code unit by code unit. *)
Fixpoint str_leb (a b : js_string) : bool :=
  match a, b with
  | [], _ => true
  | _ :: _, [] => false
  | x :: a', y :: b' =>
    if decide (x < y)%N then true
    else if decide (x = y) then str_leb a' b' else false
  end.

Definition str_le (a b : js_string) : Prop := str_leb a b = true.

Instance str_le_dec (a b : js_string) : Decision (str_le a b) :=
  decide (str_leb a b = true).

(** [Object.keys(configs).sort()]: the names offered by the select. *)
Definition config_menu (st : AppState) : completion (list js_string) :=
  match Object_keys (configs st) with
  | Normal keys => Normal (merge_sort str_le keys)
  | Throw e => Throw e
  end.

(** *** The label of a key (line 261) *)

(** [path.split('/').pop()]; [None] stands for [undefined], which [pop]
    returns on an empty array. *)
Definition key_label (path : js_string) : option js_string :=
  last (split Char.solidus path).

(** *** The theme (lines 51-65, 109-112 and 137-142) *)

Definition theme_key : js_string := js "themeMode".

(** The initial value of the state [mode]. *)
Definition initial_mode (ls : gmap js_string js_string) : js_string :=
  match ls !! theme_key with
  | Some savedMode =>
    if decide (savedMode = js "light" ∨ savedMode = js "dark")
    then savedMode else js "light"
  | None => js "light"
  end.

(** [handleThemeChange(event, newMode)] on the state [mode] and the rest of
    the state; [newMode] is [None] for [null], which the toggle group sends
    when the active button is clicked again. *)
Definition handleThemeChange (newMode : option js_string)
    (mode : js_string) (st : AppState) : js_string * AppState :=
  match newMode with
  | Some m =>
    (m, with_localStorage (<[theme_key := m]> (localStorage st)) st)
  | None => (mode, st)
  end.

(** The palette [getTheme] passes to [createTheme]. *)
Record Palette := {
  palette_mode : js_string;
  primary_main : js_string;
  background_default : js_string;
  background_paper : js_string
}.

Definition getTheme (mode : js_string) : Palette :=
  if decide (mode = js "light") then
    {| palette_mode := mode; primary_main := js "#3f51b5";
       background_default := js "#f4f5f7"; background_paper := js "#ffffff" |}
  else
    {| palette_mode := mode; primary_main := js "#64ffda";
       background_default := js "#004752"; background_paper := js "#005f6b" |}.
(** * Properties *)

(** ** Strings survive quoting *)

Lemma hex_value_digit (d : N) : (d < 16)%N → hex_value (hex_digit d) = Some d.
Proof.
  intros Hd. unfold hex_digit, hex_value.
  destruct (decide (d < 10)%N).
  - rewrite decide_True by lia. f_equal. lia.
  - rewrite decide_False, decide_True by lia. f_equal. lia.
Qed.

Lemma hex4_value (c : N) :
  (c < 65536)%N →
  (4096 * (c / 4096 mod 16) + 256 * (c / 256 mod 16) + 16 * (c / 16 mod 16)
   + c mod 16 = c)%N.
Proof.
  intros Hc.
  pose proof (N.div_mod' c 16) as H1.
  pose proof (N.div_mod' (c / 16) 16) as H2.
  pose proof (N.div_mod' (c / 256) 16) as H3.
  replace (c / 16 / 16)%N with (c / 256)%N in H2 by (by rewrite N.Div0.div_div).
  replace (c / 256 / 16)%N with (c / 4096)%N in H3 by (by rewrite N.Div0.div_div).
  assert (H4 : (c / 4096 < 16)%N) by (apply N.Div0.div_lt_upper_bound; lia).
  rewrite (N.mod_small (c / 4096) 16) by done.
  lia.
Qed.

Lemma unhex_hex4 (c : N) : (c < 65536)%N → unhex (hex4 c) = Some c.
Proof.
  intros Hc. unfold hex4, unhex, unhex4.
  rewrite !hex_value_digit by (apply N.mod_lt; lia).
  cbn [mbind option_bind]. f_equal. by apply hex4_value.
Qed.

Lemma parse_unicode_escape (c : N) (rest : js_string) :
  (c < 65536)%N →
  parse_string_chars (unicode_escape c ++ rest) =
  '(cs, r) ← parse_string_chars rest; Some (c :: cs, r).
Proof.
  intros Hc. pose proof (unhex_hex4 c Hc) as Hx.
  unfold unicode_escape, hex4 in *. simpl in *. by rewrite Hx.
Qed.

Lemma parse_verbatim (c : N) (rest : js_string) :
  c ≠ Char.quote → c ≠ Char.backslash → ¬ (c < 32)%N →
  parse_string_chars (c :: rest) =
  '(cs, r) ← parse_string_chars rest; Some (c :: cs, r).
Proof. intros. simpl. by rewrite !decide_False by done. Qed.

Lemma parse_quote_unit (c : N) (rest : js_string) :
  parse_string_chars (quote_unit c ++ rest) =
  '(cs, r) ← parse_string_chars rest; Some (c :: cs, r).
Proof.
  unfold quote_unit.
  repeat case_decide; subst; try reflexivity.
  - apply parse_unicode_escape. lia.
  - destruct (is_high_surrogate c || is_low_surrogate c) eqn:Hs.
    + apply parse_unicode_escape.
      unfold is_high_surrogate, is_low_surrogate in Hs.
      apply orb_true_iff in Hs as [Hs|Hs]; apply bool_decide_eq_true_1 in Hs; lia.
    + by apply parse_verbatim.
Qed.

Lemma parse_surrogate_pair (c d : N) (rest : js_string) :
  is_high_surrogate c && is_low_surrogate d = true →
  parse_string_chars (c :: d :: rest) =
  '(cs, r) ← parse_string_chars rest; Some (c :: d :: cs, r).
Proof.
  intros [Hc Hd]%andb_true_iff.
  apply bool_decide_eq_true_1 in Hc. apply bool_decide_eq_true_1 in Hd.
  unfold Char.quote, Char.backslash in *.
  rewrite parse_verbatim by (unfold Char.quote, Char.backslash; lia).
  rewrite parse_verbatim by (unfold Char.quote, Char.backslash; lia).
  by destruct (parse_string_chars rest) as [[??]|].
Qed.

Lemma parse_quote_chars (s rest : js_string) :
  parse_string_chars (quote_chars s ++ Char.quote :: rest) = Some (s, rest).
Proof.
  cut (parse_string_chars (quote_chars s ++ Char.quote :: rest) = Some (s, rest)
       ∧ ∀ c, parse_string_chars (quote_chars (c :: s) ++ Char.quote :: rest)
              = Some (c :: s, rest)); [by intros [? _]|].
  induction s as [|d s [IH1 IH2]].
  - split; [done|]. intros c. simpl. rewrite parse_quote_unit. done.
  - split; [apply IH2|]. intros c.
    change (quote_chars (c :: d :: s)) with
      (if is_high_surrogate c && is_low_surrogate d
       then c :: d :: quote_chars s else quote_unit c ++ quote_chars (d :: s)).
    destruct (is_high_surrogate c && is_low_surrogate d) eqn:Hp.
    + rewrite <- !app_comm_cons, parse_surrogate_pair by done. by rewrite IH1.
    + rewrite <- app_assoc, parse_quote_unit, IH2. done.
Qed.

(** ** Ordinary objects *)

Lemma keys_wf_cons (k : js_string) (ks : list js_string) :
  keys_wf (k :: ks) = true ↔
  (k ∉ ks) ∧ Forall (λ k', key_leb k k' = true) ks ∧ keys_wf ks = true.
Proof.
  simpl. rewrite !andb_true_iff, bool_decide_eq_true.
  rewrite forallb_forall, Forall_forall.
  setoid_rewrite <- list_elem_of_In. tauto.
Qed.

Lemma key_leb_trans (a b c : js_string) :
  key_leb a b = true → key_leb b c = true → key_leb a c = true.
Proof.
  unfold key_leb.
  destruct (array_index c), (array_index b), (array_index a);
    rewrite ?bool_decide_eq_true; try done. lia.
Qed.

Lemma keys_wf_app_l (ks1 ks2 : list js_string) :
  keys_wf (ks1 ++ ks2) = true → keys_wf ks1 = true.
Proof.
  induction ks1 as [|k ks1 IH]; [done|].
  rewrite <- app_comm_cons, !keys_wf_cons.
  rewrite not_elem_of_app, Forall_app. tauto.
Qed.

Lemma keys_wf_snoc (ks : list js_string) (k : js_string) :
  keys_wf (ks ++ [k]) = true ↔
  keys_wf ks = true ∧ (k ∉ ks) ∧ Forall (λ k', key_leb k' k = true) ks.
Proof.
  induction ks as [|k' ks IH].
  - simpl. split; [|done]. intros _. split_and!; [done| |done].
    apply not_elem_of_nil.
  - rewrite <- app_comm_cons, !keys_wf_cons, IH.
    rewrite not_elem_of_app, Forall_app, !Forall_cons, Forall_nil.
    rewrite !not_elem_of_cons.
    pose proof (not_elem_of_nil k').
    intuition congruence.
Qed.

Lemma obj_get_None (k : js_string) (o : object) :
  obj_get k o = None ↔ k ∉ o.*1.
Proof.
  induction o as [|[k' v] o IH]; simpl.
  - split; [|done]. intros _. apply not_elem_of_nil.
  - rewrite not_elem_of_cons, <- IH.
    case_decide; [split; [done|]|]; intuition congruence.
Qed.

Lemma obj_get_elem_of (k : js_string) (v : json) (o : object) :
  obj_get k o = Some v → (k, v) ∈ o.
Proof.
  induction o as [|[k' v'] o IH]; simpl; [done|].
  case_decide; [intros [= ->]; subst; left | right; auto].
Qed.

Lemma obj_replace_keys (k : js_string) (v : json) (o : object) :
  (obj_replace k v o).*1 = o.*1.
Proof.
  induction o as [|[k' v'] o IH]; csimpl; [done|].
  case_decide; csimpl; congruence.
Qed.

Lemma obj_insert_index_keys (i : N) (k : js_string) (v : json) (o : object) (x : js_string) :
  x ∈ (obj_insert_index i k v o).*1 ↔ x = k ∨ x ∈ o.*1.
Proof.
  induction o as [|[k' v'] o IH]; simpl.
  - rewrite list_elem_of_singleton, elem_of_nil. tauto.
  - destruct (array_index k'); [case_decide|]; simpl;
      rewrite ?elem_of_cons, ?IH; simpl; tauto.
Qed.

Lemma obj_insert_index_last (i : N) (k : js_string) (v : json) (o : object) :
  array_index k = Some i →
  Forall (λ k', key_leb k' k = true) (o.*1) →
  obj_insert_index i k v o = o ++ [(k, v)].
Proof.
  intros Hk. induction o as [|[k' v'] o IH]; simpl; [done|].
  rewrite Forall_cons. intros [Hle Ho].
  unfold key_leb in Hle. rewrite Hk in Hle.
  destruct (array_index k') as [j|]; [|done].
  apply bool_decide_eq_true in Hle.
  rewrite decide_False by lia. by rewrite IH.
Qed.

Lemma obj_set_snoc (k : js_string) (v : json) (o : object) :
  keys_wf (o.*1 ++ [k]) = true → obj_set k v o = o ++ [(k, v)].
Proof.
  rewrite keys_wf_snoc. intros (_ & Hk & Hle).
  unfold obj_set. rewrite (proj2 (obj_get_None k o) Hk).
  destruct (array_index k) eqn:E; [|done].
  by apply obj_insert_index_last.
Qed.

Lemma obj_of_members_wf (o : object) :
  keys_wf (o.*1) = true → obj_of_members o = o.
Proof.
  unfold obj_of_members.
  cut (∀ acc, keys_wf ((acc ++ o).*1) = true →
         foldl (λ acc kv, obj_set kv.1 kv.2 acc) acc o = acc ++ o).
  { intros Hc. apply (Hc []). }
  induction o as [|[k v] o IH]; intros acc Hwf; simpl.
  - by rewrite app_nil_r.
  - replace (acc ++ (k, v) :: o) with ((acc ++ [(k, v)]) ++ o) in *
      by (by rewrite <- app_assoc).
    rewrite obj_set_snoc; [by apply IH|].
    rewrite fmap_app in Hwf. apply keys_wf_app_l in Hwf.
    by rewrite fmap_app in Hwf.
Qed.

Lemma obj_insert_index_wf (i : N) (k : js_string) (v : json) (o : object) :
  array_index k = Some i → k ∉ o.*1 → keys_wf (o.*1) = true →
  keys_wf ((obj_insert_index i k v o).*1) = true.
Proof.
  intros Hk. induction o as [|[k' v'] o IH]; [done|].
  rewrite fmap_cons, not_elem_of_cons. cbn [fst]. intros [Hne Hnin] Hwf.
  pose proof Hwf as (Hk' & Hle & Hwf')%keys_wf_cons.
  assert (Hfront : key_leb k k' = true →
            keys_wf (((k, v) :: (k', v') :: o).*1) = true).
  { intros Hkk. rewrite !fmap_cons. cbn [fst]. apply keys_wf_cons. split_and!.
    - rewrite not_elem_of_cons. done.
    - constructor; [done|].
      eapply Forall_impl; [exact Hle|]. intros k'' ?. by eapply key_leb_trans.
    - exact Hwf. }
  cbn [obj_insert_index].
  destruct (array_index k') as [j|] eqn:Ej.
  - destruct (decide (i < j)%N) as [Hij|Hij].
    + apply Hfront. unfold key_leb. rewrite Ej, Hk. apply bool_decide_eq_true. lia.
    + rewrite fmap_cons. cbn [fst]. apply keys_wf_cons. split_and!.
      * rewrite obj_insert_index_keys. intros [?|?]; done.
      * apply Forall_forall. intros x [->|Hx]%obj_insert_index_keys.
        -- unfold key_leb. rewrite Hk, Ej. apply bool_decide_eq_true. lia.
        -- by eapply Forall_forall in Hle.
      * by apply IH.
  - apply Hfront. unfold key_leb. by rewrite Ej.
Qed.

Lemma obj_set_wf (k : js_string) (v : json) (o : object) :
  keys_wf (o.*1) = true → keys_wf ((obj_set k v o).*1) = true.
Proof.
  intros Hwf. unfold obj_set.
  destruct (obj_get k o) eqn:Hg.
  - by rewrite obj_replace_keys.
  - apply obj_get_None in Hg.
    destruct (array_index k) as [i|] eqn:Ei.
    + by apply obj_insert_index_wf.
    + rewrite fmap_app. simpl. apply keys_wf_snoc. split_and!; [done..|].
      apply Forall_forall. intros k' _. unfold key_leb. by rewrite Ei.
Qed.

Lemma obj_delete_keys_sublist (k : js_string) (o : object) :
  (obj_delete k o).*1 `sublist_of` o.*1.
Proof. apply fmap_sublist, sublist_filter. Qed.

Lemma keys_wf_sublist (ks1 ks2 : list js_string) :
  ks1 `sublist_of` ks2 → keys_wf ks2 = true → keys_wf ks1 = true.
Proof.
  induction 1 as [|k ks1 ks2 Hs IH|k ks1 ks2 Hs IH]; [done| |].
  - rewrite !keys_wf_cons. intros (Hk & Hle & Hwf). split_and!.
    + intros Hin. apply Hk. by eapply elem_of_sublist.
    + apply Forall_forall. intros x Hx.
      eapply Forall_forall in Hle; [exact Hle|]. by eapply elem_of_sublist.
    + by apply IH.
  - rewrite keys_wf_cons. intros (_ & _ & Hwf). by apply IH.
Qed.

Lemma obj_delete_wf (k : js_string) (o : object) :
  keys_wf (o.*1) = true → keys_wf ((obj_delete k o).*1) = true.
Proof. apply keys_wf_sublist, obj_delete_keys_sublist. Qed.

Lemma obj_get_replace (k k' : js_string) (v : json) (o : object) :
  obj_get k' (obj_replace k v o) =
  if decide (k' = k) then (λ _, v) <$> obj_get k o else obj_get k' o.
Proof.
  induction o as [|[k0 v0] o IH]; simpl.
  - by case_decide.
  - destruct (decide (k0 = k)) as [->|Hk0]; simpl.
    + destruct (decide (k = k')) as [->|Hkk'].
      * by rewrite decide_True.
      * by rewrite decide_False by congruence.
    + destruct (decide (k0 = k')) as [->|Hk0'].
      * by rewrite decide_False by congruence.
      * exact IH.
Qed.

Lemma obj_get_insert_index (i : N) (k k' : js_string) (v : json) (o : object) :
  obj_get k o = None →
  obj_get k' (obj_insert_index i k v o) =
  if decide (k' = k) then Some v else obj_get k' o.
Proof.
  assert (Hhead : ∀ o', obj_get k' ((k, v) :: o') =
            if decide (k' = k) then Some v else obj_get k' o').
  { intros o'. simpl. destruct (decide (k = k')) as [->|?].
    - by rewrite decide_True.
    - by rewrite decide_False by congruence. }
  induction o as [|[k0 v0] o IH]; intros Hnone.
  - apply Hhead.
  - cbn [obj_insert_index].
    destruct (array_index k0) as [j|]; [destruct (decide (i < j)%N)|];
      try apply Hhead.
    simpl in *. destruct (decide (k0 = k)) as [->|Hk0]; [done|].
    destruct (decide (k0 = k')) as [->|?].
    + by rewrite decide_False by congruence.
    + by apply IH.
Qed.

Lemma obj_get_snoc (k k' : js_string) (v : json) (o : object) :
  obj_get k o = None →
  obj_get k' (o ++ [(k, v)]) = if decide (k' = k) then Some v else obj_get k' o.
Proof.
  induction o as [|[k0 v0] o IH]; intros Hnone; simpl in *.
  - destruct (decide (k = k')) as [->|?].
    + by rewrite decide_True.
    + by rewrite decide_False by congruence.
  - destruct (decide (k0 = k)) as [->|Hk0]; [done|].
    destruct (decide (k0 = k')) as [->|?].
    + by rewrite decide_False by congruence.
    + by apply IH.
Qed.

(** Reading after [obj_set]: the key written holds the new value, every
    other key holds what it held. *)
Lemma obj_get_set (k k' : js_string) (v : json) (o : object) :
  obj_get k' (obj_set k v o) = if decide (k' = k) then Some v else obj_get k' o.
Proof.
  unfold obj_set. destruct (obj_get k o) as [w|] eqn:Hg.
  - rewrite obj_get_replace, Hg. done.
  - destruct (array_index k).
    + by apply obj_get_insert_index.
    + by apply obj_get_snoc.
Qed.

Lemma obj_get_delete (k k' : js_string) (o : object) :
  obj_get k' (obj_delete k o) = if decide (k' = k) then None else obj_get k' o.
Proof.
  unfold obj_delete. induction o as [|[k0 v0] o IH]; simpl.
  - by case_decide.
  - rewrite filter_cons. simpl.
    destruct (decide (k0 ≠ k)) as [Hne|Heq%dec_stable]; simpl.
    + destruct (decide (k0 = k')) as [->|?]; [|done].
      by rewrite decide_False.
    + subst k0. rewrite IH.
      destruct (decide (k' = k)) as [->|?]; [done|].
      by rewrite decide_False by congruence.
Qed.

Lemma obj_delete_absent (k : js_string) (o : object) :
  obj_get k o = None → obj_delete k o = o.
Proof.
  unfold obj_delete. induction o as [|[k0 v0] o IH]; simpl; [done|].
  destruct (decide (k0 = k)) as [->|Hne]; [done|]. intros Hnone.
  rewrite filter_cons_True by done. by rewrite IH.
Qed.

Lemma obj_set_values (Q : json → Prop) (k : js_string) (v : json) (o : object) :
  Q v → Forall (λ kv, Q kv.2) o → Forall (λ kv, Q kv.2) (obj_set k v o).
Proof.
  intros Hv Ho. apply Forall_forall. intros [k' x] Hin.
  unfold obj_set in Hin. rewrite Forall_forall in Ho.
  destruct (obj_get k o) eqn:Hg.
  - clear Hg. induction o as [|[k0 v0] o IH]; simpl in Hin; [by apply elem_of_nil in Hin|].
    destruct (decide (k0 = k)).
    + apply elem_of_cons in Hin as [[= -> ->]|Hin]; [done|].
      apply (Ho (k', x)). by right.
    + apply elem_of_cons in Hin as [[= -> ->]|Hin].
      * apply (Ho (k0, v0)). by left.
      * apply IH; [|done]. intros kv ?. apply Ho. by right.
  - destruct (array_index k) as [i|].
    + clear Hg. induction o as [|[k0 v0] o IH]; simpl in Hin.
      * by apply list_elem_of_singleton in Hin as [= -> ->].
      * destruct (array_index k0) as [j|]; [destruct (decide (i < j)%N)|].
        -- apply elem_of_cons in Hin as [[= -> ->]|Hin]; [done|]. by apply (Ho (k', x)).
        -- apply elem_of_cons in Hin as [[= -> ->]|Hin].
           ++ apply (Ho (k0, v0)). by left.
           ++ apply IH; [|done]. intros kv ?. apply Ho. by right.
        -- apply elem_of_cons in Hin as [[= -> ->]|Hin]; [done|]. by apply (Ho (k', x)).
    + apply elem_of_app in Hin as [Hin|[= -> ->]%list_elem_of_singleton]; [|done].
      by apply (Ho (k', x)).
Qed.

Lemma obj_delete_values (Q : json → Prop) (k : js_string) (o : object) :
  Forall (λ kv, Q kv.2) o → Forall (λ kv, Q kv.2) (obj_delete k o).
Proof.
  rewrite !Forall_forall. intros Ho kv Hin. apply Ho.
  eapply elem_of_sublist; [exact Hin|]. apply sublist_filter.
Qed.

(** ** [JSON.parse] reads back what [JSON.stringify] wrote *)

Lemma join_cons (sep p : js_string) (ps : list js_string) :
  join sep (p :: ps) =
  p ++ match ps with [] => [] | _ :: _ => sep ++ join sep ps end.
Proof. destruct ps; simpl; [by rewrite app_nil_r|done]. Qed.

Lemma join_cons_cons (sep p q : js_string) (ps : list js_string) :
  join sep (p :: q :: ps) = p ++ sep ++ join sep (q :: ps).
Proof. reflexivity. Qed.

Lemma join_cons_ne (sep p : js_string) (ps : list js_string) :
  ps ≠ [] → join sep (p :: ps) = p ++ sep ++ join sep ps.
Proof. by destruct ps. Qed.

Lemma skip_ws_cons (c : N) (s : js_string) :
  is_json_ws c = false → skip_ws (c :: s) = c :: s.
Proof. intros Hc. simpl. by rewrite Hc. Qed.

Lemma bind_Some {A B} (a : A) (f : A → option B) : Some a ≫= f = f a.
Proof. reflexivity. Qed.

Lemma parse_value_lbrace (fuel : nat) (s : js_string) :
  parse_value (S fuel) (Char.lbrace :: s) =
  match skip_ws s with
  | [] => None
  | d :: s2 =>
    if decide (d = Char.rbrace) then Some (JObj [], s2)
    else '(kvs, r) ← parse_members fuel (d :: s2);
         Some (JObj (obj_of_members kvs), r)
  end.
Proof. reflexivity. Qed.

Lemma parse_value_lbracket (fuel : nat) (s : js_string) :
  parse_value (S fuel) (Char.lbracket :: s) =
  match skip_ws s with
  | [] => None
  | d :: s2 =>
    if decide (d = Char.rbracket) then Some (JArr [], s2)
    else '(vs, r) ← parse_elements fuel (d :: s2);
         Some (JArr (Some <$> vs), r)
  end.
Proof. reflexivity. Qed.

Lemma parse_value_quote (fuel : nat) (s : js_string) :
  parse_value (S fuel) (Char.quote :: s) =
  '(str, r) ← parse_string_chars s; Some (JStr str, r).
Proof. reflexivity. Qed.

Lemma parse_members_quote (fuel : nat) (s : js_string) :
  parse_members (S fuel) (Char.quote :: s) =
  '(k, s2) ← parse_string_chars s;
  match skip_ws s2 with
  | [] => None
  | d :: s3 =>
    if decide (d = Char.colon) then
      '(v, s4) ← parse_value fuel (skip_ws s3);
      match skip_ws s4 with
      | [] => None
      | e :: s5 =>
        if decide (e = Char.comma) then
          '(kvs, r) ← parse_members fuel (skip_ws s5);
          Some ((k, v) :: kvs, r)
        else if decide (e = Char.rbrace) then Some ([(k, v)], s5)
        else None
      end
    else None
  end.
Proof. reflexivity. Qed.

Lemma parse_elements_unfold (fuel : nat) (s : js_string) :
  parse_elements (S fuel) s =
  '(v, s1) ← parse_value fuel s;
  match skip_ws s1 with
  | [] => None
  | e :: s2 =>
    if decide (e = Char.comma) then
      '(vs, r) ← parse_elements fuel (skip_ws s2);
      Some (v :: vs, r)
    else if decide (e = Char.rbracket) then Some ([v], s2)
    else None
  end.
Proof. reflexivity. Qed.

Lemma storable_elements (l : list (option json)) :
  forallb (λ e, match e with Some x => storable x | None => false end) l = true →
  ∃ vs, l = Some <$> vs ∧ Forall (λ x, storable x = true) vs.
Proof.
  induction l as [|[x|] l IH]; simpl.
  - intros _. by exists [].
  - intros [Hx (vs & -> & Hvs)%IH]%andb_true_iff.
    exists (x :: vs). split; [done|]. by constructor.
  - done.
Qed.

Section Roundtrip.
Context `{Platform}.

(** A storable value is printed with a first code unit that is neither
    white space nor a closing bracket. *)
Lemma stringify_head (v : json) :
  storable v = true →
  ∃ d t, JSON_stringify v = d :: t ∧ is_json_ws d = false
         ∧ d ≠ Char.rbracket ∧ d ≠ Char.rbrace.
Proof.
  destruct v as [|[]| | | |]; simpl; try done; intros _; eexists _, _;
    (split; [reflexivity|done]).
Qed.

Lemma skip_ws_stringify (v : json) (rest : js_string) :
  storable v = true →
  skip_ws (JSON_stringify v ++ rest) = JSON_stringify v ++ rest.
Proof.
  intros (d & t & -> & Hd & _)%stringify_head. simpl. by rewrite Hd.
Qed.

Lemma skip_ws_join (v : json) (ps : list js_string) (rest : js_string) :
  storable v = true →
  skip_ws (join [Char.comma] (JSON_stringify v :: ps) ++ rest)
  = join [Char.comma] (JSON_stringify v :: ps) ++ rest.
Proof.
  intros Hv. rewrite join_cons, <- app_assoc. by apply skip_ws_stringify.
Qed.

Lemma parse_elements_stringify (x : json) (vs : list json) (fuel : nat) (rest : js_string) :
  Forall (λ v, storable v = true ∧ parses_back v) (x :: vs) →
  2 * length (join [Char.comma] (JSON_stringify <$> (x :: vs))) + 1 < fuel →
  parse_elements fuel
    (join [Char.comma] (JSON_stringify <$> (x :: vs)) ++ Char.rbracket :: rest)
  = Some (x :: vs, rest).
Proof.
  revert x fuel. induction vs as [|y vs IH]; intros x fuel Hall Hfuel.
  - apply Forall_singleton in Hall as [_ Hx]. cbn [fmap list_fmap join] in *.
    destruct fuel as [|fuel]; [lia|].
    rewrite parse_elements_unfold, Hx, bind_Some by lia.
    rewrite skip_ws_cons by done. cbv iota beta.
    by rewrite decide_False, decide_True.
  - apply Forall_cons in Hall as [[_ Hx] Hall].
    pose proof Hall as [[Hy _] _]%Forall_cons.
    rewrite !fmap_cons, join_cons_cons in *.
    rewrite !length_app in Hfuel. change (length [Char.comma]) with 1 in Hfuel.
    destruct fuel as [|fuel]; [lia|].
    rewrite parse_elements_unfold, <- !app_assoc, Hx, bind_Some by lia.
    cbn [app]. rewrite skip_ws_cons by done. cbv iota beta.
    rewrite decide_True by done.
    rewrite skip_ws_join by done.
    rewrite <- fmap_cons, IH; [done|done|].
    rewrite fmap_cons. lia.
Qed.

Lemma parse_members_stringify (k : js_string) (x : json) (o : object)
    (fuel : nat) (rest : js_string) :
  Forall (λ kv, storable kv.2 = true ∧ parses_back kv.2) ((k, x) :: o) →
  2 * length (join [Char.comma]
                ((λ '(k, x), quote_json_string k ++ Char.colon :: JSON_stringify x)
                   <$> ((k, x) :: o))) + 1 < fuel →
  parse_members fuel
    (join [Char.comma]
       ((λ '(k, x), quote_json_string k ++ Char.colon :: JSON_stringify x)
          <$> ((k, x) :: o)) ++ Char.rbrace :: rest)
  = Some ((k, x) :: o, rest).
Proof.
  revert k x fuel. induction o as [|[k' y] o IH]; intros k x fuel Hall Hfuel.
  - apply Forall_singleton in Hall as [Hs Hx]. cbn [fmap list_fmap join snd] in *.
    unfold quote_json_string in *.
    rewrite <- !app_comm_cons, <- !app_assoc in *. cbn [app] in *.
    rewrite length_cons, length_app, !length_cons in Hfuel.
    destruct fuel as [|fuel]; [lia|].
    rewrite parse_members_quote, parse_quote_chars, bind_Some. cbv iota beta.
    rewrite skip_ws_cons by done. cbv iota beta. rewrite decide_True by done.
    rewrite skip_ws_stringify, Hx, bind_Some by (done || lia). cbv iota beta.
    rewrite skip_ws_cons by done. cbv iota beta.
    by rewrite decide_False, decide_True.
  - apply Forall_cons in Hall as [[Hs Hx] Hall]. cbn [snd] in *.
    rewrite fmap_cons, join_cons_ne in Hfuel |- * by done.
    set (tl := join [Char.comma] (_ <$> (k', y) :: o)) in *.
    assert (Htl : ∀ fuel, 2 * length tl + 1 < fuel →
              parse_members fuel (tl ++ Char.rbrace :: rest) = Some ((k', y) :: o, rest))
      by (intros fuel'; apply IH, Hall).
    clear IH.
    assert (Hws : ∀ r, skip_ws (tl ++ r) = tl ++ r).
    { intros r. unfold tl. rewrite fmap_cons, join_cons. unfold quote_json_string.
      rewrite <- !app_comm_cons. by apply skip_ws_cons. }
    clearbody tl. cbv beta iota in *. unfold quote_json_string in *.
    rewrite <- !app_comm_cons, <- !app_assoc in *. cbn [app] in *.
    rewrite length_cons, length_app, !length_cons, length_app, length_cons in Hfuel.
    destruct fuel as [|fuel]; [lia|].
    rewrite parse_members_quote, parse_quote_chars, bind_Some. cbv iota beta.
    rewrite skip_ws_cons by done. cbv iota beta. rewrite decide_True by done.
    rewrite skip_ws_stringify, Hx, bind_Some by (done || lia). cbv iota beta.
    rewrite skip_ws_cons by done. cbv iota beta. rewrite decide_True by done.
    rewrite Hws, Htl by lia. done.
Qed.

Lemma parse_value_stringify (v : json) : storable v = true → parses_back v.
Proof.
  induction v as [|b|x|s|l IH|o IH] using json_ind; intros Hs fuel rest Hfuel;
    (destruct fuel as [|fuel]; [lia|]).
  - reflexivity.
  - by destruct b.
  - done.
  - cbn [JSON_stringify]. unfold quote_json_string.
    rewrite <- app_comm_cons, <- app_assoc. cbn [app].
    by rewrite parse_value_quote, parse_quote_chars.
  - cbn [storable] in Hs. apply storable_elements in Hs as (vs & -> & Hvs).
    cbn [JSON_stringify] in *. rewrite Forall_fmap in IH.
    rewrite <- list_fmap_compose in Hfuel |- *.
    change (_ ∘ Some) with JSON_stringify in Hfuel |- *.
    rewrite <- app_comm_cons, <- app_assoc, parse_value_lbracket. cbn [app].
    destruct vs as [|x vs]; [done|].
    assert (Hall : Forall (λ v, storable v = true ∧ parses_back v) (x :: vs)).
    { apply Forall_forall. intros y Hy.
      assert (storable y = true) by (by eapply Forall_forall in Hvs).
      split; [done|]. eapply Forall_forall in IH; [|exact Hy]. by apply IH. }
    pose proof Hall as [[Hx _] _]%Forall_cons.
    rewrite length_cons, length_app, length_cons in Hfuel.
    rewrite fmap_cons, skip_ws_join by done.
    destruct (stringify_head x Hx) as (d & t & Hd & _ & Hd' & _).
    pose proof (parse_elements_stringify x vs fuel rest Hall) as Hp.
    cbn [length] in Hfuel. specialize (Hp ltac:(lia)).
    rewrite fmap_cons in Hp.
    rewrite join_cons, Hd, <- !app_comm_cons in Hp |- *.
    by rewrite decide_False, Hp.
  - cbn [storable] in Hs. apply andb_true_iff in Hs as [Hwf Hvs].
    cbn [JSON_stringify] in *.
    rewrite <- app_comm_cons, <- app_assoc, parse_value_lbrace. cbn [app].
    destruct o as [|[k x] o]; [done|].
    assert (Hall : Forall (λ kv, storable kv.2 = true ∧ parses_back kv.2) ((k, x) :: o)).
    { apply Forall_forall. intros kv Hkv. rewrite forallb_forall in Hvs.
      assert (storable kv.2 = true) by (by apply Hvs, list_elem_of_In).
      split; [done|]. eapply Forall_forall in IH; [|exact Hkv]. by apply IH. }
    rewrite length_cons, length_app, length_cons in Hfuel.
    pose proof (parse_members_stringify k x o fuel rest Hall) as Hp.
    cbn [length] in Hfuel. specialize (Hp ltac:(lia)).
    rewrite fmap_cons, join_cons in Hp |- *. cbv beta iota in Hp |- *.
    unfold quote_json_string at 1 in Hp. unfold quote_json_string at 1.
    rewrite <- !app_comm_cons in Hp |- *.
    rewrite skip_ws_cons by done. rewrite decide_False by done.
    rewrite Hp, bind_Some. by rewrite obj_of_members_wf.
Qed.

(** [JSON.parse(JSON.stringify(v))] is [v] for every storable [v]. *)
Lemma JSON_parse_stringify (v : json) :
  storable v = true → JSON_parse (JSON_stringify v) = Some v.
Proof.
  intros Hs. unfold JSON_parse.
  pose proof (skip_ws_stringify v [] Hs) as Hws.
  pose proof (parse_value_stringify v Hs (S (2 * length (JSON_stringify v))) []
                ltac:(lia)) as Hp.
  rewrite app_nil_r in Hws, Hp. by rewrite Hws, Hp.
Qed.
End Roundtrip.

(** ** The handlers *)

Ltac run_handler :=
  repeat progress
    (unfold bind, ret, modify, lift, throw, getItem, setItem,
       JSON_parse_or_throw, parse_saved; cbn beta iota).

Lemma JSON_parse_empty : JSON_parse [] = None.
Proof. reflexivity. Qed.

(** [persisted] is what [loadConfigsFromStorage] returns, and the only
    change the function makes is to [configs]. *)
Lemma loadConfigsFromStorage_persisted (st : AppState) :
  loadConfigsFromStorage st =
  match persisted st with
  | Some v => (Normal v, with_configs v st)
  | None => (Throw SyntaxError, st)
  end.
Proof.
  unfold loadConfigsFromStorage, persisted. run_handler.
  destruct (localStorage st !! slot) as [[|c s]|]; try done.
  by destruct (JSON_parse (c :: s)).
Qed.

Lemma profile_object_eq `{Platform} (ip user port keyPath : json) :
  profile_object ip user port keyPath =
  [(js "ip", ip); (js "user", user); (js "port", port); (js "keyPath", keyPath)].
Proof. unfold profile_object. by apply obj_of_members_wf. Qed.

Lemma storable_profile `{Platform} (ip user port keyPath : json) :
  storable ip = true → storable user = true → storable port = true →
  storable keyPath = true →
  storable (JObj (profile_object ip user port keyPath)) = true.
Proof.
  intros Hi Hu Hp Hk. rewrite profile_object_eq.
  cbn [storable forallb snd]. rewrite Hi, Hu, Hp, Hk. reflexivity.
Qed.

Lemma storable_obj (o : object) :
  storable (JObj o) = true ↔
  keys_wf (o.*1) = true ∧ Forall (λ kv, storable kv.2 = true) o.
Proof.
  cbn [storable]. rewrite andb_true_iff, forallb_forall, Forall_forall.
  split; intros [Hwf Hall]; (split; [done|]); intros kv Hkv;
    apply Hall; by apply list_elem_of_In.
Qed.

Lemma storable_obj_get (k : js_string) (v : json) (o : object) :
  storable (JObj o) = true → obj_get k o = Some v → storable v = true.
Proof.
  intros [_ Hall]%storable_obj Hg%obj_get_elem_of.
  rewrite Forall_forall in Hall. by apply (Hall (k, v)).
Qed.

Lemma storable_obj_set (k : js_string) (v : json) (o : object) :
  storable v = true → storable (JObj o) = true →
  storable (JObj (obj_set k v o)) = true.
Proof.
  rewrite !storable_obj. intros Hv [Hwf Hall]. split.
  - by apply obj_set_wf.
  - by apply (obj_set_values (λ x, storable x = true)).
Qed.

Lemma storable_obj_delete (k : js_string) (o : object) :
  storable (JObj o) = true → storable (JObj (obj_delete k o)) = true.
Proof.
  rewrite !storable_obj. intros [Hwf Hall]. split.
  - by apply obj_delete_wf.
  - by apply (obj_delete_values (λ x, storable x = true)).
Qed.

Lemma object_spread_obj (o : object) :
  storable (JObj o) = true → object_spread (JObj o) = o.
Proof. intros [Hwf _]%storable_obj. by apply obj_of_members_wf. Qed.

Section HandlerLemmas.
Context `{Platform}.

(** After the slot is written with the text of a storable object, the
    store holds that object. *)
Lemma store_holds_written (st : AppState) (o : object) :
  storable (JObj o) = true →
  localStorage st !! slot = Some (JSON_stringify (JObj o)) →
  store_holds st o.
Proof.
  intros Hs Hls. split; [|done]. unfold persisted. rewrite Hls.
  rewrite <- (JSON_parse_stringify (JObj o) Hs). reflexivity.
Qed.

Lemma handleSaveConfig_empty (st : AppState) :
  configName st = [] → handleSaveConfig st = (Normal (), st).
Proof. intros Hn. unfold handleSaveConfig. by rewrite Hn. Qed.

Lemma handleSaveConfig_holds (st : AppState) (o : object) :
  configName st ≠ [] → store_holds st o →
  handleSaveConfig st =
  (Normal (),
   saved_state st
     (obj_set (configName st)
        (JObj (profile_object (pixelIp st) (pixelUser st) (sshPort st)
                 (selectedKey st))) o)).
Proof.
  intros Hn [Hp Hs]. unfold handleSaveConfig.
  rewrite bool_decide_eq_false_2 by done.
  unfold bind at 1. rewrite loadConfigsFromStorage_persisted, Hp.
  rewrite object_spread_obj by done. reflexivity.
Qed.

Lemma saved_state_holds (st : AppState) (o : object) :
  storable (JObj o) = true → store_holds (saved_state st o) o.
Proof.
  intros Hs. apply store_holds_written; [done|].
  cbn. apply lookup_insert_eq.
Qed.

Lemma handleDeleteConfig_skipped (st : AppState) (confirmed : bool) :
  selectedConfig st = [] ∨ confirmed = false →
  handleDeleteConfig confirmed st = (Normal (), st).
Proof.
  intros Hc. unfold handleDeleteConfig.
  destruct Hc as [-> | ->]; [done|].
  by rewrite orb_true_r.
Qed.

Lemma handleDeleteConfig_holds (st : AppState) (o : object) :
  selectedConfig st ≠ [] → store_holds st o →
  handleDeleteConfig true st =
  (Normal (), deleted_state st (obj_delete (selectedConfig st) o)).
Proof.
  intros Hn [Hp Hs]. unfold handleDeleteConfig.
  rewrite bool_decide_eq_false_2 by done. cbn [negb orb].
  unfold bind at 1. rewrite loadConfigsFromStorage_persisted, Hp.
  reflexivity.
Qed.

Lemma deleted_state_holds (st : AppState) (o : object) :
  storable (JObj o) = true → store_holds (deleted_state st o) o.
Proof.
  intros Hs. apply store_holds_written; [done|].
  cbn. apply lookup_insert_eq.
Qed.

Lemma get_field_truthy (data : js_value) (f : js_string) :
  truthy data = true → ∃ x, get_field data f = Normal x.
Proof.
  destruct data as [| |v]; [done|by eexists|].
  destruct v; try done; intros _; cbn [get_field js_get];
    destruct (get_own _ _); eauto.
Qed.

Lemma handleLoadConfig_none (st : AppState) :
  selectedConfig st = [] → handleLoadConfig st = (Normal (), st).
Proof. intros Hn. unfold handleLoadConfig. by rewrite Hn. Qed.

Lemma handleLoadConfig_falsy (st : AppState) (v : json) (data : js_value) :
  selectedConfig st ≠ [] → persisted st = Some v →
  js_get v (selectedConfig st) = Normal data → truthy data = false →
  handleLoadConfig st = (Normal (), with_configs v st).
Proof.
  intros Hn Hp Hd Ht. unfold handleLoadConfig.
  rewrite bool_decide_eq_false_2 by done.
  unfold bind at 1. rewrite loadConfigsFromStorage_persisted, Hp.
  unfold bind at 1, lift at 1. rewrite Hd, Ht. reflexivity.
Qed.

Lemma handleLoadConfig_truthy (st : AppState) (v : json) (data : js_value)
    (ip user port keyPath : js_value) :
  selectedConfig st ≠ [] → persisted st = Some v →
  js_get v (selectedConfig st) = Normal data → truthy data = true →
  get_field data (js "ip") = Normal ip →
  get_field data (js "user") = Normal user →
  get_field data (js "port") = Normal port →
  get_field data (js "keyPath") = Normal keyPath →
  handleLoadConfig st = (Normal (), loaded_state st v ip user port keyPath).
Proof.
  intros Hn Hp Hd Ht Hi Hu Hpo Hk. unfold handleLoadConfig.
  rewrite bool_decide_eq_false_2 by done.
  unfold bind at 1. rewrite loadConfigsFromStorage_persisted, Hp.
  unfold bind at 1, lift at 1. rewrite Hd, Ht.
  run_handler. rewrite Hi, Hu, Hpo, Hk. reflexivity.
Qed.
End HandlerLemmas.

(** ** Invariants of the store *)

Lemma names_nonempty_get (o : object) :
  names_nonempty o ↔ obj_get [] o = None.
Proof.
  unfold names_nonempty. rewrite obj_get_None, Forall_forall. split.
  - intros Hall Hin. by apply (Hall [] Hin).
  - intros Hnin k Hk ->. done.
Qed.

Lemma persisted_ext (st st' : AppState) :
  localStorage st' = localStorage st → persisted st' = persisted st.
Proof. unfold persisted. by intros ->. Qed.

Lemma store_holds_ext (st st' : AppState) (o : object) :
  localStorage st' = localStorage st → store_holds st o → store_holds st' o.
Proof. intros Hls [Hp Hs]. split; [|done]. by rewrite (persisted_ext st st'). Qed.

Lemma get_own_profile_field (v : json) (f : js_string) :
  f ∈ profile_fields →
  get_own v f = match v with JObj p => obj_get f p | _ => None end.
Proof.
  intros Hf. unfold profile_fields in Hf.
  repeat (apply elem_of_cons in Hf as [->|Hf]); [..|by apply elem_of_nil in Hf];
    by destruct v.
Qed.

Section Defaults.
Context `{Platform}.

Lemma or_default_string (s d : js_string) :
  or_default (Val (JStr s)) d = JStr (if decide (s = []) then d else s).
Proof.
  cbn [or_default to_boolean]. destruct (decide (s = [])) as [->|Hs].
  - done.
  - by rewrite bool_decide_eq_true_2.
Qed.

Lemma or_default_string_empty (s : js_string) :
  or_default (Val (JStr s)) [] = JStr s.
Proof. rewrite or_default_string. by case_decide; subst. Qed.

Lemma storable_or_default (x : js_value) (d : js_string) :
  (∀ v, x = Val v → storable v = true) → storable (or_default x d) = true.
Proof.
  intros Hx. destruct x as [| |v]; cbn [or_default]; [done..|].
  destruct (to_boolean v); [by apply Hx|done].
Qed.

(** A field read from a storable entry is storable. *)
Lemma storable_get_field (data : js_value) (f : js_string) (x : js_value) :
  f ∈ profile_fields →
  (∀ v, data = Val v → storable v = true) →
  get_field data f = Normal x →
  ∀ v, x = Val v → storable v = true.
Proof.
  intros Hf Hdata Hx v ->. destruct data as [| |w]; [done|by injection Hx| ].
  cbn [get_field] in Hx. unfold js_get in Hx.
  rewrite get_own_profile_field, inherited_profile_field in Hx by done.
  destruct w as [| | | | |p]; try done.
  destruct (obj_get f p) as [y|] eqn:Hy; [|done].
  injection Hx as ->. eapply storable_obj_get; [|exact Hy]. by apply Hdata.
Qed.
End Defaults.

Lemma app_inv_ext (st st' : AppState) :
  localStorage st' = localStorage st →
  pixelIp st' = pixelIp st → pixelUser st' = pixelUser st →
  sshPort st' = sshPort st → selectedKey st' = selectedKey st →
  app_inv st → app_inv st'.
Proof.
  intros Hls Hi Hu Hp Hk [Hform (o & Hst & Hne)]. split.
  - unfold form_storable in *. by rewrite Hi, Hu, Hp, Hk.
  - exists o. split; [by apply (store_holds_ext st)|done].
Qed.

Section Invariant.
Context `{Platform}.

Lemma handleLoadConfig_inv (st : AppState) :
  app_inv st → ∃ st', handleLoadConfig st = (Normal (), st') ∧ app_inv st'.
Proof.
  intros Hinv. pose proof Hinv as [Hform (o & [Hp Hs] & Hne)].
  destruct (decide (selectedConfig st = [])) as [Hsel|Hsel].
  { exists st. split; [by apply handleLoadConfig_none|done]. }
  assert (∃ data, js_get (JObj o) (selectedConfig st) = Normal data
            ∧ ∀ v, data = Val v → storable v = true) as (data & Hdata & Hsd).
  { cbn [js_get get_own]. destruct (obj_get _ o) as [x|] eqn:Hx.
    - eexists. split; [done|]. intros v [= <-]. by eapply storable_obj_get.
    - eexists. split; [done|]. intros v Hv. by destruct (inherited _ _). }
  destruct (truthy data) eqn:Ht.
  - destruct (get_field_truthy data (js "ip") Ht) as [ip Hip].
    destruct (get_field_truthy data (js "user") Ht) as [user Huser].
    destruct (get_field_truthy data (js "port") Ht) as [port Hport].
    destruct (get_field_truthy data (js "keyPath") Ht) as [key Hkey].
    eexists. split; [by eapply handleLoadConfig_truthy|]. split.
    + unfold form_storable, profile_fields.
      cbn [loaded_state pixelIp pixelUser selectedKey sshPort
           with_selectedKey with_sshPort with_pixelUser with_pixelIp
           with_configName with_configs].
      split_and!; apply storable_or_default;
        eapply storable_get_field; try eassumption;
        unfold profile_fields; set_solver.
    + exists o. split; [|done]. by apply (store_holds_ext st).
  - eexists. split; [by eapply handleLoadConfig_falsy|].
    by apply (app_inv_ext st).
Qed.

Lemma handleSaveConfig_inv (st : AppState) :
  app_inv st → ∃ st', handleSaveConfig st = (Normal (), st') ∧ app_inv st'.
Proof.
  intros Hinv. pose proof Hinv as [Hform (o & Hst & Hne)].
  destruct (decide (configName st = [])) as [Hname|Hname].
  { exists st. split; [by apply handleSaveConfig_empty|done]. }
  eexists. split; [by apply handleSaveConfig_holds|]. split; [done|].
  destruct Hform as (Hi & Hu & Hp & Hk).
  eexists. split.
  - apply saved_state_holds, storable_obj_set; [by apply storable_profile|apply Hst].
  - apply names_nonempty_get. rewrite obj_get_set.
    rewrite decide_False by done. by apply names_nonempty_get.
Qed.

Lemma handleDeleteConfig_inv (st : AppState) (confirmed : bool) :
  app_inv st →
  ∃ st', handleDeleteConfig confirmed st = (Normal (), st') ∧ app_inv st'.
Proof.
  intros Hinv. pose proof Hinv as [Hform (o & Hst & Hne)].
  destruct (decide (selectedConfig st = [])) as [Hsel|Hsel].
  { exists st. split; [|done]. apply handleDeleteConfig_skipped. by left. }
  destruct confirmed.
  - eexists. split; [by apply handleDeleteConfig_holds|]. split; [done|].
    eexists. split.
    + apply deleted_state_holds, storable_obj_delete, Hst.
    + apply names_nonempty_get. rewrite obj_get_delete.
      rewrite decide_False by done. by apply names_nonempty_get.
  - exists st. split; [|done]. apply handleDeleteConfig_skipped. by right.
Qed.

(** [handleGenerateInstructions] touches the modal only, also when a field
    cannot be printed and the template literal throws. *)
Lemma handleGenerateInstructions_frame (st : AppState) :
  localStorage (handleGenerateInstructions st).2 = localStorage st
  ∧ configs (handleGenerateInstructions st).2 = configs st
  ∧ pixelIp (handleGenerateInstructions st).2 = pixelIp st
  ∧ pixelUser (handleGenerateInstructions st).2 = pixelUser st
  ∧ sshPort (handleGenerateInstructions st).2 = sshPort st
  ∧ selectedKey (handleGenerateInstructions st).2 = selectedKey st.
Proof.
  unfold handleGenerateInstructions. destruct (_ || _); [done|].
  run_handler. destruct (to_string (selectedKey st)); [|done].
  destruct (to_string (pixelIp st)); done.
Qed.

Lemma handleGenerateInstructions_inv (st : AppState) :
  app_inv st → app_inv (handleGenerateInstructions st).2.
Proof.
  destruct (handleGenerateInstructions_frame st) as (? & ? & ? & ? & ? & ?).
  by apply app_inv_ext.
Qed.

Lemma handle_inv (e : event) (st : AppState) :
  app_inv st →
  app_inv (handle e st).2 ∧ (e ≠ ClickGenerate → (handle e st).1 = Normal ()).
Proof.
  intros Hinv.
  assert (Hnormal : ∀ h : Handler (),
            (∃ st', h st = (Normal (), st') ∧ app_inv st') →
            app_inv (h st).2 ∧ (h st).1 = Normal ()).
  { intros h (st' & -> & ?). done. }
  assert (Hform : ∀ f : AppState → AppState,
            localStorage (f st) = localStorage st →
            storable (pixelIp (f st)) = true → storable (pixelUser (f st)) = true →
            storable (sshPort (f st)) = true → storable (selectedKey (f st)) = true →
            app_inv (f st)).
  { intros f Hls Hi Hu Hp Hk. split; [done|].
    destruct Hinv as [_ (o & Hst & Hne)]. exists o. split; [|done].
    by apply (store_holds_ext st). }
  pose proof Hinv as [(Hi & Hu & Hp & Hk) _].
  destruct e; cbn [handle]; try (split; [by apply Hform|done]).
  - destruct (Hnormal handleLoadConfig); [by apply handleLoadConfig_inv|].
    split; [done|by intros _].
  - destruct (Hnormal handleSaveConfig); [by apply handleSaveConfig_inv|].
    split; [done|by intros _].
  - destruct (Hnormal (handleDeleteConfig confirmed));
      [by apply handleDeleteConfig_inv|].
    split; [done|by intros _].
  - split; [by apply handleGenerateInstructions_inv|done].
Qed.

(** The invariant holds in the state a run of events ends in, whether the
    run completes or is ended by an exception; only Generate can throw. *)
Lemma handle_all_inv (es : list event) (st : AppState) :
  app_inv st →
  app_inv (handle_all es st).2
  ∧ (ClickGenerate ∉ es → (handle_all es st).1 = Normal ()).
Proof.
  revert st. induction es as [|e es IH]; intros st Hinv; [done|].
  destruct (handle_inv e st Hinv) as [Hinv1 Hnorm1].
  cbn [handle_all]. unfold bind.
  destruct (handle e st) as [[[]|err] st1] eqn:He; cbn [fst snd] in *.
  - destruct (IH st1 Hinv1) as [Hinv' Hnorm']. split; [done|].
    intros Hnin. apply Hnorm'. by apply not_elem_of_cons in Hnin as [_ ?].
  - split; [done|]. intros Hnin. apply not_elem_of_cons in Hnin as [Hne _].
    by specialize (Hnorm1 ltac:(done)).
Qed.
End Invariant.

(** ** [trim] and [split] *)

Lemma split_nonempty (sep : N) (s : js_string) : split sep s ≠ [].
Proof.
  induction s as [|c s IH]; cbn [split]; [done|].
  case_decide; [done|]. by destruct (split sep s).
Qed.

Lemma split_join (sep : N) (s : js_string) : join [sep] (split sep s) = s.
Proof.
  induction s as [|c s IH]; cbn [split]; [done|].
  pose proof (split_nonempty sep s) as Hne.
  case_decide as Hc.
  - subst c. rewrite join_cons_ne by done. by rewrite IH.
  - destruct (split sep s) as [|p ps]; [done|].
    rewrite <- IH, !join_cons. reflexivity.
Qed.

Lemma split_no_sep (sep : N) (s : js_string) :
  Forall (λ p, sep ∉ p) (split sep s).
Proof.
  induction s as [|c s IH]; cbn [split].
  - repeat constructor. apply not_elem_of_nil.
  - case_decide as Hc.
    + constructor; [apply not_elem_of_nil|done].
    + destruct (split sep s) as [|p ps].
      * repeat constructor. rewrite not_elem_of_cons. split; [done|apply not_elem_of_nil].
      * apply Forall_cons in IH as [Hp Hps]. constructor; [|done].
        rewrite not_elem_of_cons. split; [congruence|done].
Qed.

Lemma trim_start_spec (s : js_string) :
  ∃ pre, s = pre ++ trim_start s ∧ forallb is_trim_space pre = true
    ∧ ∀ c, head (trim_start s) = Some c → is_trim_space c = false.
Proof.
  induction s as [|c s (pre & Hs & Hpre & Hhd)]; cbn [trim_start].
  - by exists [].
  - destruct (is_trim_space c) eqn:Hc.
    + exists (c :: pre). split_and!; [by rewrite Hs at 1| |done].
      cbn [forallb]. by rewrite Hc, Hpre.
    + exists []. split_and!; [done..|]. by intros ? [= <-].
Qed.

Lemma trim_start_spaces (s : js_string) :
  forallb is_trim_space s = true → trim_start s = [].
Proof.
  induction s as [|c s IH]; cbn [forallb trim_start]; [done|].
  intros [-> Hs]%andb_true_iff. by apply IH.
Qed.

Lemma trim_is_trimmed (s : js_string) : is_trimmed (trim s) s.
Proof.
  unfold trim.
  destruct (trim_start_spec s) as (pre & Hs & Hpre & Hhd).
  destruct (trim_start_spec (reverse (trim_start s))) as (post & Hr & Hpost & Hlast).
  set (r := trim_start (reverse (trim_start s))) in *.
  assert (Ht1 : trim_start s = reverse r ++ reverse post).
  { rewrite <- reverse_app, <- Hr. by rewrite reverse_involutive. }
  exists pre, (reverse post). split_and!.
  - by rewrite <- Ht1.
  - done.
  - rewrite forallb_forall in Hpost |- *. intros c Hc. apply Hpost.
    apply (proj1 (list_elem_of_In post c)), elem_of_reverse.
    by apply (proj2 (list_elem_of_In (reverse post) c)).
  - intros c Hc. apply Hhd. rewrite Ht1.
    destruct (reverse r); [done|]. exact Hc.
  - intros c Hc. apply Hlast. by rewrite last_reverse in Hc.
Qed.

Lemma trim_spaces (s : js_string) :
  forallb is_trim_space s = true → trim s = [].
Proof. intros Hs. unfold trim. rewrite (trim_start_spaces s Hs). reflexivity. Qed.

(** * The claims of the specification *)

(** ** Loading *)

(** C7: when the slot ['ssh-vnc-configs-mui'] is absent (nothing was ever
    saved), [loadConfigsFromStorage] returns the empty mapping and does not
    throw; it only sets [configs] to that mapping. *)
Theorem load_absent (st : AppState) :
  localStorage st !! slot = None →
  loadConfigsFromStorage st = (Normal (JObj []), with_configs (JObj []) st).
Proof.
  intros Hls. rewrite loadConfigsFromStorage_persisted.
  unfold persisted. by rewrite Hls.
Qed.

Lemma load_absent_witness :
  localStorage (useState_initial ∅) !! slot = None ∧
  loadConfigsFromStorage (useState_initial ∅) =
  (Normal (JObj []), with_configs (JObj []) (useState_initial ∅)).
Proof. split; [reflexivity|]. apply (load_absent (useState_initial ∅)). reflexivity. Defined.

(** C1, as stated, fails: with the unparsable text [{] in the slot,
    [loadConfigsFromStorage] throws the [SyntaxError] of [JSON.parse]
    instead of returning the empty mapping. *)
Lemma load_unparsable_throws :
  JSON_parse (js "{") = None ∧
  (loadConfigsFromStorage (useState_initial {[slot := js "{"]})).1
  = Throw SyntaxError.
Proof. split; vm_compute; reflexivity. Qed.

(** C1, amended: for a stored value that does not parse as JSON, the load
    returns the empty mapping when the value is the empty string, which the
    guard [saved ? ... : {}] takes for "no data"; for every other
    unparsable value [JSON.parse] throws, nothing catches the [SyntaxError],
    and the state is left as it was.  The effect that loads the
    configurations when the component mounts behaves the same way. *)
Theorem load_unparsable (st : AppState) (s : js_string) :
  localStorage st !! slot = Some s → JSON_parse s = None →
  (s = [] →
     loadConfigsFromStorage st = (Normal (JObj []), with_configs (JObj []) st)
     ∧ initialLoadEffect st = (Normal (), st))
  ∧ (s ≠ [] →
     loadConfigsFromStorage st = (Throw SyntaxError, st)
     ∧ initialLoadEffect st = (Throw SyntaxError, st)).
Proof.
  intros Hls Hp. rewrite loadConfigsFromStorage_persisted.
  unfold persisted, initialLoadEffect. run_handler. rewrite Hls.
  destruct s as [|c s]; (split; [|done || (intros _; by rewrite Hp)]); done.
Qed.

Lemma load_unparsable_witness :
  let st := useState_initial {[slot := js "{"]} in
  loadConfigsFromStorage st = (Throw SyntaxError, st)
  ∧ initialLoadEffect st = (Throw SyntaxError, st).
Proof.
  intros st.
  refine (proj2 (load_unparsable st (js "{") _ _) _);
    [reflexivity | reflexivity | discriminate].
Defined.

(** C9: when the entry loaded is an object whose [port] is absent or the
    empty string, [handleLoadConfig] sets the port of the form to ['22'];
    [ip], [user] and [keyPath], when absent or empty, are loaded as the
    empty string. *)
Theorem load_defaults `{Platform} (st : AppState) (o p : object) :
  selectedConfig st ≠ [] →
  persisted st = Some (JObj o) →
  obj_get (selectedConfig st) o = Some (JObj p) →
  ∃ st', handleLoadConfig st = (Normal (), st')
    ∧ (obj_get (js "port") p = None ∨ obj_get (js "port") p = Some (JStr []) →
       sshPort st' = JStr (js "22"))
    ∧ (obj_get (js "ip") p = None ∨ obj_get (js "ip") p = Some (JStr []) →
       pixelIp st' = JStr [])
    ∧ (obj_get (js "user") p = None ∨ obj_get (js "user") p = Some (JStr []) →
       pixelUser st' = JStr [])
    ∧ (obj_get (js "keyPath") p = None ∨ obj_get (js "keyPath") p = Some (JStr []) →
       selectedKey st' = JStr []).
Proof.
  intros Hn Hp Hd.
  assert (Hdata : js_get (JObj o) (selectedConfig st) = Normal (Val (JObj p)))
    by (cbn [js_get get_own]; by rewrite Hd).
  destruct (get_field_truthy (Val (JObj p)) (js "ip") eq_refl) as [ip Hip].
  destruct (get_field_truthy (Val (JObj p)) (js "user") eq_refl) as [user Huser].
  destruct (get_field_truthy (Val (JObj p)) (js "port") eq_refl) as [port Hport].
  destruct (get_field_truthy (Val (JObj p)) (js "keyPath") eq_refl) as [key Hkey].
  eexists. split.
  { eapply handleLoadConfig_truthy; eauto. }
  assert (Hdefault : ∀ f d x,
            f ∈ profile_fields → get_field (Val (JObj p)) f = Normal x →
            obj_get f p = None ∨ obj_get f p = Some (JStr []) →
            or_default x d = JStr d).
  { intros f d x Hf Hx [Hnone|Hempty]; cbn [get_field js_get get_own] in Hx.
    - rewrite Hnone, inherited_profile_field in Hx by done. by injection Hx as <-.
    - rewrite Hempty in Hx. by injection Hx as <-. }
  cbn. split_and!; apply Hdefault; try done;
    unfold profile_fields; set_solver.
Qed.

Lemma load_defaults_witness :
  let st := with_selectedConfig (js "a")
              (useState_initial {[slot := js "{" ++ [34; 97; 34]%N ++ js ":{}}"]}) in
  ∃ st', handleLoadConfig (H := lexeme_platform) st = (Normal (), st')
    ∧ sshPort st' = JStr (js "22") ∧ pixelIp st' = JStr []
    ∧ pixelUser st' = JStr [] ∧ selectedKey st' = JStr [].
Proof.
  intros st.
  destruct (load_defaults (H := lexeme_platform) st [(js "a", JObj [])] [])
    as (st' & Hrun & Hport & Hip & Huser & Hkey);
    [discriminate | reflexivity | reflexivity |].
  exists st'. split_and!; [exact Hrun | apply Hport | apply Hip | apply Huser | apply Hkey];
    by left.
Defined.

(** ** The instructions generator *)

(** C5: for ip [10.0.0.5], user [pat], port [22] and key path
    [/home/pat/.ssh/id_ed25519], [handleGenerateInstructions] opens the
    modal with a first block that contains
    [cat /home/pat/.ssh/id_ed25519.pub] and a last block that contains
    [ssh-keygen -R 10.0.0.5]. *)
Theorem generate_example `{Platform} (st : AppState) :
  ∃ out st',
    handleGenerateInstructions
      (fill_form (configName st) (js "10.0.0.5") (js "pat") (js "22")
         (js "/home/pat/.ssh/id_ed25519") st)
    = (Normal (), st')
    ∧ modalContent st' = Some out ∧ isModalOpen st' = true
    ∧ is_substring (js "cat /home/pat/.ssh/id_ed25519.pub") (publicKeyPath out)
    ∧ is_substring (js "ssh-keygen -R 10.0.0.5") (removeHostKeyCommand out).
Proof.
  set (st0 := fill_form _ _ _ _ _ st).
  set (out := {| publicKeyPath := js "cat /home/pat/.ssh/id_ed25519.pub";
                 debianCommands := debianCommandsText;
                 removeHostKeyCommand := js "ssh-keygen -R 10.0.0.5" |}).
  exists out, (with_isModalOpen true (with_modalContent (Some out) st0)).
  split_and!; [vm_compute; reflexivity | reflexivity | reflexivity | |];
    exists [], []; by rewrite app_nil_r.
Qed.

(** C6: when one of the four fields is the empty string,
    [handleGenerateInstructions] returns without an exception and leaves
    the state, the modal and its content included, as it was. *)
Theorem generate_missing_field `{Platform} (st : AppState) :
  pixelIp st = JStr [] ∨ pixelUser st = JStr [] ∨ sshPort st = JStr []
  ∨ selectedKey st = JStr [] →
  handleGenerateInstructions st = (Normal (), st).
Proof.
  intros Hempty. unfold handleGenerateInstructions.
  destruct Hempty as [-> | [-> | [-> | ->]]]; cbn [to_boolean];
    rewrite ?orb_true_r; reflexivity.
Qed.

Lemma generate_missing_field_witness :
  handleGenerateInstructions (H := lexeme_platform) (useState_initial ∅)
  = (Normal (), useState_initial ∅).
Proof.
  apply (generate_missing_field (H := lexeme_platform) (useState_initial ∅)).
  left. reflexivity.
Defined.

(** ** Saving, loading back and deleting *)

(** C2, as stated, fails: a profile saved with the empty string as its port
    is loaded back with port ['22']. *)
Lemma save_load_empty_port :
  let run :=
    handle_all (H := lexeme_platform)
      [TypeConfigName (js "home"); TypePixelIp (js "10.0.0.5");
       TypePixelUser (js "pat"); TypeSshPort []; SelectKey (js "/k");
       ClickSave; SelectConfig (js "home"); ClickLoad]
      (useState_initial ∅) in
  run.1 = Normal () ∧ sshPort run.2 = JStr (js "22") ∧ sshPort run.2 ≠ JStr [].
Proof. vm_compute. split_and!; [reflexivity | reflexivity | discriminate]. Qed.

(** C2, amended: after a profile is saved under a non-empty name [N],
    loading [N] (from any state of the form, as long as the store was not
    written in between) puts [N] in the name field and gives back the [ip],
    the [user] and the [keyPath] that were saved, and the [port] that was
    saved unless it was the empty string, which is loaded as ['22']. *)
Theorem save_load_roundtrip `{Platform} (st : AppState) (o : object)
    (N ip user port keyPath : js_string) :
  N ≠ [] → store_holds st o →
  ∃ st1,
    handleSaveConfig (fill_form N ip user port keyPath st) = (Normal (), st1)
    ∧ ∀ st1', localStorage st1' = localStorage st1 → selectedConfig st1' = N →
      ∃ st2, handleLoadConfig st1' = (Normal (), st2)
        ∧ configName st2 = N
        ∧ pixelIp st2 = JStr ip
        ∧ pixelUser st2 = JStr user
        ∧ selectedKey st2 = JStr keyPath
        ∧ sshPort st2 = JStr (if decide (port = []) then js "22" else port).
Proof.
  intros HN Hst. set (st0 := fill_form N ip user port keyPath st).
  assert (Hst0 : store_holds st0 o) by (by apply (store_holds_ext st)).
  pose proof (handleSaveConfig_holds st0 o HN Hst0) as Hsave.
  cbn [st0 fill_form configName pixelIp pixelUser sshPort selectedKey
       with_selectedKey with_sshPort with_pixelUser with_pixelIp with_configName]
    in Hsave.
  set (prof := profile_object (JStr ip) (JStr user) (JStr port) (JStr keyPath)) in *.
  set (o' := obj_set N (JObj prof) o) in *.
  assert (Hs' : storable (JObj o') = true).
  { apply storable_obj_set; [by apply storable_profile|apply Hst]. }
  eexists. split; [exact Hsave|]. intros st1' Hls Hsel.
  assert (Hp1 : persisted st1' = Some (JObj o')).
  { rewrite (persisted_ext _ _ Hls). by apply saved_state_holds. }
  assert (Hdata : js_get (JObj o') (selectedConfig st1') = Normal (Val (JObj prof))).
  { cbn [js_get get_own]. unfold o'. rewrite Hsel, obj_get_set.
    by rewrite decide_True. }
  assert (Hfield : ∀ f x, obj_get f prof = Some x →
            get_field (Val (JObj prof)) f = Normal (Val x)).
  { intros f x Hf. cbn [get_field js_get get_own]. by rewrite Hf. }
  unfold prof in Hfield. rewrite profile_object_eq in Hfield.
  eexists. split.
  { eapply handleLoadConfig_truthy; [by rewrite Hsel|exact Hp1|exact Hdata|done|..];
      apply Hfield; reflexivity. }
  cbn [loaded_state configName pixelIp pixelUser selectedKey sshPort
       with_selectedKey with_sshPort with_pixelUser with_pixelIp
       with_configName with_configs].
  rewrite !or_default_string_empty, or_default_string. by rewrite Hsel.
Qed.

Lemma save_load_roundtrip_witness :
  ∃ st1,
    handleSaveConfig (H := lexeme_platform)
      (fill_form (js "home") (js "10.0.0.5") (js "pat") [] (js "/k")
         (useState_initial ∅)) = (Normal (), st1)
    ∧ ∀ st1', localStorage st1' = localStorage st1 →
      selectedConfig st1' = js "home" →
      ∃ st2, handleLoadConfig (H := lexeme_platform) st1' = (Normal (), st2)
        ∧ configName st2 = js "home"
        ∧ pixelIp st2 = JStr (js "10.0.0.5")
        ∧ pixelUser st2 = JStr (js "pat")
        ∧ selectedKey st2 = JStr (js "/k")
        ∧ sshPort st2 = JStr (js "22").
Proof.
  apply (save_load_roundtrip (H := lexeme_platform) (useState_initial ∅) []
           (js "home") (js "10.0.0.5") (js "pat") [] (js "/k"));
    [discriminate | split; reflexivity].
Defined.

(** C3: when the store holds a mapping in which [N] is present, saving
    under [N] (a non-empty name, or the save does not run) writes a mapping
    in which [N] holds the profile of the form, every other name holds what
    it held, and the names and their order are the same.  The mapping
    written is also the new value of [configs]. *)
Theorem save_existing_frame `{Platform} (st : AppState) (o : object) (N : js_string) :
  store_holds st o → form_storable st →
  configName st = N → N ≠ [] → is_Some (obj_get N o) →
  ∃ st' o',
    handleSaveConfig st = (Normal (), st')
    ∧ store_holds st' o' ∧ configs st' = JObj o'
    ∧ obj_get N o' =
      Some (JObj (profile_object (pixelIp st) (pixelUser st) (sshPort st)
                    (selectedKey st)))
    ∧ (∀ K, K ≠ N → obj_get K o' = obj_get K o)
    ∧ o'.*1 = o.*1.
Proof.
  intros Hst (Hi & Hu & Hp & Hk) HN Hne [old Hold].
  pose proof (handleSaveConfig_holds st o) as Hsave. rewrite HN in Hsave.
  eexists _, _. split; [by apply Hsave|]. split_and!.
  - apply saved_state_holds, storable_obj_set; [by apply storable_profile|apply Hst].
  - reflexivity.
  - rewrite obj_get_set. by rewrite decide_True.
  - intros K HK. rewrite obj_get_set. by rewrite decide_False.
  - unfold obj_set. rewrite Hold. apply obj_replace_keys.
Qed.

Lemma save_existing_frame_witness :
  let st := fill_form (js "a") (js "h") (js "u") (js "22") (js "/k")
              (useState_initial
                 {[slot := js "{" ++ [34; 97; 34]%N ++ js ":{}," ++ [34; 98; 34]%N
                           ++ js ":{}}"]}) in
  ∃ st' o',
    handleSaveConfig (H := lexeme_platform) st = (Normal (), st')
    ∧ store_holds st' o'
    ∧ obj_get (js "b") o' = Some (JObj [])
    ∧ o'.*1 = [js "a"; js "b"].
Proof.
  intros st.
  destruct (save_existing_frame (H := lexeme_platform) st
              [(js "a", JObj []); (js "b", JObj [])] (js "a"))
    as (st' & o' & Hrun & Hholds & _ & _ & Hframe & Hkeys).
  - split; reflexivity.
  - repeat split.
  - reflexivity.
  - discriminate.
  - by eexists.
  - exists st', o'. split_and!; [done|done| |done].
    rewrite Hframe by discriminate. reflexivity.
Defined.

(** C4: when the store holds a mapping whose names are non-empty, deleting
    [N] after confirmation writes a mapping without [N] in which every
    other name holds what it held; when [N] is not in the mapping, the
    mapping written, if any, is the one that was there. *)
Theorem delete_exact `{Platform} (st : AppState) (o : object) (N : js_string) :
  store_holds st o → names_nonempty o → selectedConfig st = N →
  ∃ st' o',
    handleDeleteConfig true st = (Normal (), st')
    ∧ store_holds st' o'
    ∧ obj_get N o' = None
    ∧ (∀ K, K ≠ N → obj_get K o' = obj_get K o)
    ∧ (obj_get N o = None → o' = o).
Proof.
  intros Hst Hne%names_nonempty_get HN.
  destruct (decide (N = [])) as [->|HN'].
  - exists st, o. split_and!; try done.
    apply handleDeleteConfig_skipped. by left.
  - pose proof (handleDeleteConfig_holds st o) as Hdel. rewrite HN in Hdel.
    eexists _, _. split; [by apply Hdel|]. split_and!.
    + apply deleted_state_holds, storable_obj_delete, Hst.
    + rewrite obj_get_delete. by rewrite decide_True.
    + intros K HK. rewrite obj_get_delete. by rewrite decide_False.
    + apply obj_delete_absent.
Qed.

Lemma delete_exact_witness :
  let st := with_selectedConfig (js "a")
              (useState_initial
                 {[slot := js "{" ++ [34; 97; 34]%N ++ js ":{}," ++ [34; 98; 34]%N
                           ++ js ":{}}"]}) in
  ∃ st' o',
    handleDeleteConfig (H := lexeme_platform) true st = (Normal (), st')
    ∧ store_holds st' o'
    ∧ obj_get (js "a") o' = None
    ∧ obj_get (js "b") o' = Some (JObj []).
Proof.
  intros st.
  destruct (delete_exact (H := lexeme_platform) st
              [(js "a", JObj []); (js "b", JObj [])] (js "a"))
    as (st' & o' & Hrun & Hholds & Hgone & Hframe & _).
  - split; reflexivity.
  - repeat constructor; discriminate.
  - reflexivity.
  - exists st', o'. split_and!; [done..|].
    rewrite Hframe by discriminate. reflexivity.
Defined.

(** C8: no configuration is stored under the empty name, and the store
    operations keep it so.  From a state in which the store holds a mapping
    with non-empty names (and the form holds storable values), a click on
    Save with an empty name changes nothing, and every sequence of events
    ends in such a state again, whether it completes or is ended by an
    exception.  Load, Save and Delete never throw from such a state: a
    sequence without a click on Generate (whose template literals throw on
    a field that cannot be printed) completes.  A freshly mounted component
    over an absent slot is such a state. *)
Theorem names_stay_nonempty `{Platform} (st : AppState) (es : list event) :
  app_inv st →
  (configName st = [] → handleSaveConfig st = (Normal (), st))
  ∧ app_inv (handle_all es st).2
  ∧ (ClickGenerate ∉ es → (handle_all es st).1 = Normal ()).
Proof.
  intros Hinv. split; [apply handleSaveConfig_empty|].
  by apply handle_all_inv.
Qed.

Lemma app_inv_initial (ls : gmap js_string js_string) :
  ls !! slot = None → app_inv (useState_initial ls).
Proof.
  intros Hls. split; [by repeat split|].
  exists []. split; [|by constructor].
  split; [|done]. unfold persisted. cbn [useState_initial localStorage].
  by rewrite Hls.
Qed.

Lemma names_stay_nonempty_witness :
  let run :=
    handle_all (H := lexeme_platform)
      [TypeConfigName (js "home"); ClickSave; TypeConfigName []; ClickSave;
       SelectConfig (js "home"); ClickLoad; ClickDelete true]
      (useState_initial ∅) in
  run.1 = Normal () ∧ app_inv run.2.
Proof.
  intros run.
  destruct (names_stay_nonempty (H := lexeme_platform) (useState_initial ∅)
              [TypeConfigName (js "home"); ClickSave; TypeConfigName []; ClickSave;
               SelectConfig (js "home"); ClickLoad; ClickDelete true])
    as (_ & Hinv & Hnormal).
  - apply app_inv_initial. reflexivity.
  - split; [|exact Hinv]. apply Hnormal. intros Hin.
    repeat (apply elem_of_cons in Hin as [Hin|Hin]; [discriminate|]).
    by apply elem_of_nil in Hin.
Defined.

(** ** The list of keys *)

(** C10: after the effect that follows [sshKeyPaths], [availableKeys] is the
    list of the non-empty lines of the trimmed text: the text without the
    white space at its two ends, cut at its line feeds, the empty pieces
    dropped.  A text of white space only gives the empty list. *)
Theorem available_keys_lines (st : AppState) :
  ∃ t ls,
    is_trimmed t (sshKeyPaths st) ∧ is_lines ls t
    ∧ availableKeysEffect st
      = (Normal (), with_availableKeys (filter (λ p, p ≠ []) ls) st)
    ∧ (forallb is_trim_space (sshKeyPaths st) = true →
       filter (λ p, p ≠ []) ls = []).
Proof.
  exists (trim (sshKeyPaths st)),
         (split Char.line_feed (trim (sshKeyPaths st))).
  split_and!.
  - apply trim_is_trimmed.
  - split_and!; [apply split_nonempty | apply split_join | apply split_no_sep].
  - unfold availableKeysEffect, modify. do 2 f_equal.
    apply list_filter_iff. intros p. destruct p; cbn [length]; [|split; [done|lia]].
    split; [lia|done].
  - intros Hs. by rewrite trim_spaces.
Qed.


(** * Further properties of the component *)

(** ** What the handlers write *)

Lemma writes_only_slot_bind {A B} (m : Handler A) (k : A → Handler B) :
  writes_only_slot m → (∀ a, writes_only_slot (k a)) →
  writes_only_slot (bind m k).
Proof.
  intros Hm Hk st key Hkey. unfold bind.
  specialize (Hm st key Hkey). destruct (m st) as [[a|e] st1]; cbn [snd] in *.
  - by rewrite (Hk a st1 key Hkey).
  - done.
Qed.

Lemma keeps_storage_bind {A B} (m : Handler A) (k : A → Handler B) :
  keeps_storage m → (∀ a, keeps_storage (k a)) → keeps_storage (bind m k).
Proof.
  intros Hm Hk st. unfold bind.
  specialize (Hm st). destruct (m st) as [[a|e] st1]; cbn [snd] in *.
  - by rewrite (Hk a st1).
  - done.
Qed.

Lemma keeps_storage_writes_only_slot {A} (h : Handler A) :
  keeps_storage h → writes_only_slot h.
Proof. intros Hh st key _. by rewrite Hh. Qed.

Lemma keeps_storage_load : keeps_storage loadConfigsFromStorage.
Proof.
  intros st. rewrite loadConfigsFromStorage_persisted.
  by destruct (persisted st).
Qed.

Lemma keeps_storage_modify (f : AppState → AppState) :
  (∀ st, localStorage (f st) = localStorage st) → keeps_storage (modify f).
Proof. intros Hf st. apply Hf. Qed.

Lemma writes_only_slot_setItem (value : js_string) :
  writes_only_slot (setItem slot value).
Proof. intros st key Hkey. cbn. by rewrite lookup_insert_ne. Qed.

Section Frame.
Context `{Platform}.

Lemma keeps_storage_handleLoadConfig : keeps_storage handleLoadConfig.
Proof.
  intros st. unfold handleLoadConfig. case_bool_decide; [done|].
  unfold bind at 1. rewrite loadConfigsFromStorage_persisted.
  destruct (persisted st) as [v|]; [|done].
  unfold bind at 1, lift at 1. destruct (js_get v _) as [data|e]; [|done].
  destruct (truthy data); [|done].
  run_handler. by repeat case_match.
Qed.

Lemma keeps_storage_handleGenerateInstructions :
  keeps_storage handleGenerateInstructions.
Proof. intros st. apply handleGenerateInstructions_frame. Qed.

Lemma writes_only_slot_handleSaveConfig : writes_only_slot handleSaveConfig.
Proof.
  intros st key Hkey. unfold handleSaveConfig. case_bool_decide; [done|].
  unfold bind at 1. rewrite loadConfigsFromStorage_persisted.
  destruct (persisted st) as [v|]; [|done].
  cbn. by rewrite lookup_insert_ne.
Qed.

Lemma writes_only_slot_handleDeleteConfig (confirmed : bool) :
  writes_only_slot (handleDeleteConfig confirmed).
Proof.
  intros st key Hkey. unfold handleDeleteConfig. case_match; [done|].
  unfold bind at 1. rewrite loadConfigsFromStorage_persisted.
  destruct (persisted st) as [v|]; [|done].
  unfold bind at 1, lift at 1. destruct (js_delete v _) as [v'|e]; [|done].
  cbn. by rewrite lookup_insert_ne.
Qed.

Lemma writes_only_slot_handle (e : event) : writes_only_slot (handle e).
Proof.
  destruct e; cbn [handle];
    try (apply keeps_storage_writes_only_slot; intros st; reflexivity).
  - apply keeps_storage_writes_only_slot, keeps_storage_handleLoadConfig.
  - apply writes_only_slot_handleSaveConfig.
  - apply writes_only_slot_handleDeleteConfig.
  - apply keeps_storage_writes_only_slot, keeps_storage_handleGenerateInstructions.
Qed.

(** X1: whatever the user does, and whether or not a handler throws on the
    way, the component writes no key of [localStorage] other than
    ['ssh-vnc-configs-mui']; the theme, kept under ['themeMode'], is never
    touched by the handlers of the form. *)
Theorem handlers_write_only_slot (es : list event) (st : AppState) (key : js_string) :
  key ≠ slot →
  localStorage (handle_all es st).2 !! key = localStorage st !! key.
Proof.
  revert st key. change (writes_only_slot (handle_all es)).
  induction es as [|e es IH]; [done|].
  cbn [handle_all]. apply writes_only_slot_bind; [|done].
  apply writes_only_slot_handle.
Qed.
End Frame.

Lemma handlers_write_only_slot_witness :
  localStorage
    (handle_all (H := lexeme_platform)
       [TypeConfigName (js "home"); ClickSave; SelectConfig (js "home");
        ClickDelete true]
       (useState_initial {[theme_key := js "dark"]})).2 !! theme_key
  = Some (js "dark").
Proof.
  rewrite (handlers_write_only_slot (H := lexeme_platform)); [reflexivity|].
  intros Heq. vm_compute in Heq. discriminate.
Defined.

Section ReadOnly.
Context `{Platform}.

(** X2: a click on Load or on Generate never writes [localStorage],
    whatever the slot holds and even when the handler throws. *)
Theorem load_and_generate_keep_storage (st : AppState) :
  localStorage (handleLoadConfig st).2 = localStorage st
  ∧ localStorage (handleGenerateInstructions st).2 = localStorage st.
Proof.
  split; [apply keeps_storage_handleLoadConfig
         |apply keeps_storage_handleGenerateInstructions].
Qed.

(** X3: while the slot holds a non-empty text that does not parse, Load (with
    a selection), Save (with a name) and a confirmed Delete (with a
    selection) all throw the [SyntaxError] of [JSON.parse] and change
    nothing: in particular Save never overwrites the unreadable text. *)
Theorem unreadable_store_blocks (st : AppState) :
  persisted st = None →
  (selectedConfig st ≠ [] → handleLoadConfig st = (Throw SyntaxError, st))
  ∧ (configName st ≠ [] → handleSaveConfig st = (Throw SyntaxError, st))
  ∧ (selectedConfig st ≠ [] →
     handleDeleteConfig true st = (Throw SyntaxError, st)).
Proof.
  intros Hp. split_and!; intros Hne.
  - unfold handleLoadConfig. rewrite bool_decide_eq_false_2 by done.
    unfold bind at 1. by rewrite loadConfigsFromStorage_persisted, Hp.
  - unfold handleSaveConfig. rewrite bool_decide_eq_false_2 by done.
    unfold bind at 1. by rewrite loadConfigsFromStorage_persisted, Hp.
  - unfold handleDeleteConfig. rewrite bool_decide_eq_false_2 by done.
    cbn [negb orb]. unfold bind at 1.
    by rewrite loadConfigsFromStorage_persisted, Hp.
Qed.

(** X4: when the slot holds the JSON text [null], Load (with a selection)
    and a confirmed Delete (with a selection) set [configs] to [null] and
    throw a [TypeError], leaving the slot as it is; Save (with a name)
    does not throw, since spreading [null] copies nothing, and replaces the
    store by a mapping with the saved profile as its only entry. *)
Theorem null_store (st : AppState) :
  persisted st = Some JNull →
  (selectedConfig st ≠ [] →
     handleLoadConfig st = (Throw TypeError, with_configs JNull st))
  ∧ (selectedConfig st ≠ [] →
     handleDeleteConfig true st = (Throw TypeError, with_configs JNull st))
  ∧ (configName st ≠ [] → form_storable st →
     ∃ st',
       handleSaveConfig st = (Normal (), st')
       ∧ store_holds st'
           [(configName st,
             JObj (profile_object (pixelIp st) (pixelUser st) (sshPort st)
                     (selectedKey st)))]).
Proof.
  intros Hp. split_and!.
  - intros Hne. unfold handleLoadConfig. rewrite bool_decide_eq_false_2 by done.
    unfold bind at 1. by rewrite loadConfigsFromStorage_persisted, Hp.
  - intros Hne. unfold handleDeleteConfig. rewrite bool_decide_eq_false_2 by done.
    cbn [negb orb]. unfold bind at 1.
    by rewrite loadConfigsFromStorage_persisted, Hp.
  - intros Hne (Hi & Hu & Hpo & Hk).
    set (o' := [(configName st,
                 JObj (profile_object (pixelIp st) (pixelUser st) (sshPort st)
                         (selectedKey st)))]).
    assert (Hset : obj_set (configName st)
                     (JObj (profile_object (pixelIp st) (pixelUser st)
                              (sshPort st) (selectedKey st)))
                     (object_spread JNull) = o').
    { change (object_spread JNull) with ([] : object).
      unfold obj_set. cbn [obj_get]. by destruct (array_index _). }
    exists (saved_state st o'). split.
    + unfold handleSaveConfig. rewrite bool_decide_eq_false_2 by done.
      unfold bind at 1. rewrite loadConfigsFromStorage_persisted, Hp.
      cbv beta iota. rewrite Hset. reflexivity.
    + apply saved_state_holds. rewrite <- Hset.
      apply storable_obj_set; [by apply storable_profile|done].
Qed.
End ReadOnly.

Lemma unreadable_store_blocks_witness :
  let st := fill_form (js "home") (js "h") (js "u") (js "22") (js "/k")
              (useState_initial {[slot := js "{oops"]}) in
  handleSaveConfig (H := lexeme_platform) st = (Throw SyntaxError, st).
Proof.
  intros st.
  refine (proj1 (proj2 (unreadable_store_blocks (H := lexeme_platform) st _)) _);
    [reflexivity|discriminate].
Defined.

Lemma null_store_witness :
  let st := with_selectedConfig (js "home")
              (useState_initial {[slot := js "null"]}) in
  handleLoadConfig (H := lexeme_platform) st
  = (Throw TypeError, with_configs JNull st).
Proof.
  intros st.
  refine (proj1 (null_store (H := lexeme_platform) st _) _);
    [reflexivity|discriminate].
Defined.

(** ** How the store operations compose *)

Lemma obj_replace_same (k : js_string) (v : json) (o : object) :
  obj_get k o = Some v → obj_replace k v o = o.
Proof.
  induction o as [|[k0 v0] o IH]; cbn [obj_get obj_replace]; [done|].
  destruct (decide (k0 = k)) as [->|Hne].
  - by intros [= ->].
  - intros Hg. by rewrite IH.
Qed.

Lemma obj_set_idem (k : js_string) (v : json) (o : object) :
  obj_set k v (obj_set k v o) = obj_set k v o.
Proof.
  assert (Hg : obj_get k (obj_set k v o) = Some v)
    by (rewrite obj_get_set; by rewrite decide_True).
  unfold obj_set at 1. rewrite Hg. by apply obj_replace_same.
Qed.

Lemma obj_delete_insert_index (i : N) (k : js_string) (v : json) (o : object) :
  obj_get k o = None → obj_delete k (obj_insert_index i k v o) = o.
Proof.
  unfold obj_delete.
  assert (Hhead : ∀ o', obj_get k o' = None →
            filter (λ kv, kv.1 ≠ k) ((k, v) :: o') = o').
  { intros o' Ho'. rewrite filter_cons_False by (cbn; tauto).
    by apply obj_delete_absent. }
  induction o as [|[k0 v0] o IH]; intros Hnone.
  - by apply Hhead.
  - cbn [obj_insert_index].
    destruct (array_index k0) as [j|]; [destruct (decide (i < j)%N)|];
      try by apply Hhead.
    cbn [obj_get] in Hnone. destruct (decide (k0 = k)) as [|Hne]; [done|].
    rewrite filter_cons_True by done. by rewrite IH.
Qed.

Lemma obj_delete_set_new (k : js_string) (v : json) (o : object) :
  obj_get k o = None → obj_delete k (obj_set k v o) = o.
Proof.
  intros Hnone. unfold obj_set. rewrite Hnone.
  destruct (array_index k) as [i|]; [by apply obj_delete_insert_index|].
  unfold obj_delete. rewrite filter_app, filter_cons_False by (cbn; tauto).
  rewrite filter_nil, app_nil_r. by apply obj_delete_absent.
Qed.

Lemma obj_set_new_keys (k : js_string) (v : json) (o : object) :
  obj_get k o = None → (obj_set k v o).*1 ≡ₚ k :: o.*1.
Proof.
  intros Hnone. unfold obj_set. rewrite Hnone.
  destruct (array_index k) as [i|].
  - clear Hnone. induction o as [|[k0 v0] o IH]; [done|].
    cbn [obj_insert_index].
    destruct (array_index k0) as [j|]; [destruct (decide (i < j)%N)|]; try done.
    rewrite !fmap_cons, IH. cbn [fst]. apply Permutation_swap.
  - rewrite fmap_app. cbn. by rewrite Permutation_app_comm.
Qed.

Section Compose.
Context `{Platform}.

(** X5: saving under a name [N] that the stored mapping does not have adds
    exactly one entry: the written mapping holds the profile under [N],
    every other name holds what it held, and its names are those of the old
    mapping and [N]. *)
Theorem save_new_adds_one (st : AppState) (o : object) (N : js_string) :
  store_holds st o → form_storable st →
  configName st = N → N ≠ [] → obj_get N o = None →
  ∃ st' o',
    handleSaveConfig st = (Normal (), st')
    ∧ store_holds st' o'
    ∧ obj_get N o' =
      Some (JObj (profile_object (pixelIp st) (pixelUser st) (sshPort st)
                    (selectedKey st)))
    ∧ (∀ K, K ≠ N → obj_get K o' = obj_get K o)
    ∧ o'.*1 ≡ₚ N :: o.*1.
Proof.
  intros Hst (Hi & Hu & Hp & Hk) HN Hne Hnew.
  pose proof (handleSaveConfig_holds st o) as Hsave. rewrite HN in Hsave.
  eexists _, _. split; [by apply Hsave|]. split_and!.
  - apply saved_state_holds, storable_obj_set; [by apply storable_profile|apply Hst].
  - rewrite obj_get_set. by rewrite decide_True.
  - intros K HK. rewrite obj_get_set. by rewrite decide_False.
  - by apply obj_set_new_keys.
Qed.

(** X6: saving twice in a row writes the same text twice: the second Save
    leaves [localStorage] and [configs] as the first one left them (it
    only shows its alert again). *)
Theorem save_twice (st : AppState) (o : object) :
  store_holds st o → form_storable st → configName st ≠ [] →
  ∃ st1 st2,
    handleSaveConfig st = (Normal (), st1)
    ∧ handleSaveConfig st1 = (Normal (), st2)
    ∧ localStorage st2 = localStorage st1
    ∧ configs st2 = configs st1.
Proof.
  intros Hst (Hi & Hu & Hp & Hk) Hne.
  set (p := JObj (profile_object (pixelIp st) (pixelUser st) (sshPort st)
                    (selectedKey st))).
  assert (Hs1 : storable (JObj (obj_set (configName st) p o)) = true).
  { apply storable_obj_set; [by apply storable_profile|apply Hst]. }
  pose proof (handleSaveConfig_holds st o Hne Hst) as Hsave1. fold p in Hsave1.
  pose proof (handleSaveConfig_holds (saved_state st (obj_set (configName st) p o))
                _ Hne (saved_state_holds st _ Hs1)) as Hsave2.
  cbn [saved_state configName pixelIp pixelUser sshPort selectedKey
       with_alerts with_configs with_localStorage] in Hsave2.
  fold p in Hsave2. rewrite obj_set_idem in Hsave2.
  eexists _, _. split_and!; [exact Hsave1|exact Hsave2| |reflexivity].
  cbn [saved_state localStorage with_alerts with_configs with_localStorage].
  apply insert_insert_eq.
Qed.

(** X7: saving under a new name [N] and then deleting [N] gives back the
    mapping that was stored before the two clicks. *)
Theorem save_then_delete (st : AppState) (o : object) (N : js_string) :
  store_holds st o → form_storable st →
  configName st = N → N ≠ [] → obj_get N o = None →
  ∃ st1,
    handleSaveConfig st = (Normal (), st1)
    ∧ ∀ st1', localStorage st1' = localStorage st1 → selectedConfig st1' = N →
      ∃ st2, handleDeleteConfig true st1' = (Normal (), st2)
        ∧ store_holds st2 o.
Proof.
  intros Hst (Hi & Hu & Hp & Hk) HN Hne Hnew.
  set (p := JObj (profile_object (pixelIp st) (pixelUser st) (sshPort st)
                    (selectedKey st))).
  assert (Hs1 : storable (JObj (obj_set N p o)) = true).
  { apply storable_obj_set; [by apply storable_profile|apply Hst]. }
  pose proof (handleSaveConfig_holds st o) as Hsave. rewrite HN in Hsave.
  eexists. split; [by apply Hsave|]. fold p. intros st1' Hls Hsel.
  assert (Hst1' : store_holds st1' (obj_set N p o)).
  { apply (store_holds_ext _ _ _ Hls). by apply saved_state_holds. }
  pose proof (handleDeleteConfig_holds st1' (obj_set N p o)) as Hdel.
  rewrite Hsel in Hdel.
  eexists. split; [by apply Hdel|].
  rewrite obj_delete_set_new by done.
  apply deleted_state_holds, Hst.
Qed.

(** X8: loading a name that the stored mapping does not have leaves the
    form as it is and only refreshes [configs], unless the name is a member
    the mapping inherits from its prototype (such as [toString]): then the
    read yields that member, which is truthy and has none of the four
    fields, and the form is overwritten with the name and the defaults. *)
Theorem load_missing_name (st : AppState) (o : object) :
  selectedConfig st ≠ [] → persisted st = Some (JObj o) →
  obj_get (selectedConfig st) o = None →
  (inherited (JObj o) (selectedConfig st) = false →
     handleLoadConfig st = (Normal (), with_configs (JObj o) st))
  ∧ (inherited (JObj o) (selectedConfig st) = true →
     ∃ st', handleLoadConfig st = (Normal (), st')
       ∧ configName st' = selectedConfig st
       ∧ pixelIp st' = JStr [] ∧ pixelUser st' = JStr []
       ∧ sshPort st' = JStr (js "22") ∧ selectedKey st' = JStr []).
Proof.
  intros Hsel Hp Hnone. split; intros Hinh.
  - apply (handleLoadConfig_falsy st (JObj o) Undefined); [done|done| |done].
    cbn [js_get get_own]. by rewrite Hnone, Hinh.
  - eexists. split.
    + eapply (handleLoadConfig_truthy st (JObj o) Builtin
                Undefined Undefined Undefined Undefined); try done.
      cbn [js_get get_own]. by rewrite Hnone, Hinh.
    + done.
Qed.
End Compose.

Lemma save_new_adds_one_witness :
  let st := fill_form (js "home") (js "h") (js "u") (js "22") (js "/k")
              (useState_initial ∅) in
  ∃ st' o',
    handleSaveConfig (H := lexeme_platform) st = (Normal (), st')
    ∧ store_holds st' o' ∧ o'.*1 ≡ₚ [js "home"].
Proof.
  intros st.
  destruct (save_new_adds_one (H := lexeme_platform) st [] (js "home"))
    as (st' & o' & Hrun & Hholds & _ & _ & Hkeys);
    [by split | by repeat split | reflexivity | discriminate | reflexivity |].
  by exists st', o'.
Defined.

Lemma save_twice_witness :
  let st := fill_form (js "home") (js "h") (js "u") (js "22") (js "/k")
              (useState_initial ∅) in
  ∃ st1 st2,
    handleSaveConfig (H := lexeme_platform) st = (Normal (), st1)
    ∧ handleSaveConfig (H := lexeme_platform) st1 = (Normal (), st2)
    ∧ localStorage st2 = localStorage st1
    ∧ configs st2 = configs st1.
Proof.
  intros st.
  apply (save_twice (H := lexeme_platform) st []);
    [by split | by repeat split | discriminate].
Defined.

Lemma save_then_delete_witness :
  let st := fill_form (js "home") (js "h") (js "u") (js "22") (js "/k")
              (useState_initial ∅) in
  ∃ st1,
    handleSaveConfig (H := lexeme_platform) st = (Normal (), st1)
    ∧ ∀ st1', localStorage st1' = localStorage st1 →
      selectedConfig st1' = js "home" →
      ∃ st2, handleDeleteConfig (H := lexeme_platform) true st1' = (Normal (), st2)
        ∧ store_holds st2 [].
Proof.
  intros st.
  apply (save_then_delete (H := lexeme_platform) st [] (js "home"));
    [by split | by repeat split | reflexivity | discriminate | reflexivity].
Defined.

Lemma load_missing_name_witness :
  let st := with_selectedConfig (js "toString") (useState_initial ∅) in
  ∃ st', handleLoadConfig (H := lexeme_platform) st = (Normal (), st')
    ∧ configName st' = js "toString"
    ∧ pixelIp st' = JStr [] ∧ pixelUser st' = JStr []
    ∧ sshPort st' = JStr (js "22") ∧ selectedKey st' = JStr [].
Proof.
  intros st.
  refine (proj2 (load_missing_name (H := lexeme_platform) st [] _ _ _) _);
    [discriminate | reflexivity | reflexivity | reflexivity].
Defined.

(** ** [configs] mirrors the store *)

Lemma synced_ext (st st' : AppState) :
  localStorage st' = localStorage st → configs st' = configs st →
  synced st → synced st'.
Proof.
  unfold synced. intros Hls Hc Hs. by rewrite (persisted_ext st st'), Hc.
Qed.

Section Synced.
Context `{Platform}.

Lemma handleLoadConfig_configs (st st' : AppState) (c : completion ()) (v : json) :
  selectedConfig st ≠ [] → persisted st = Some v →
  handleLoadConfig st = (c, st') → configs st' = v.
Proof.
  intros Hsel Hp. unfold handleLoadConfig.
  rewrite bool_decide_eq_false_2 by done.
  unfold bind at 1. rewrite loadConfigsFromStorage_persisted, Hp.
  unfold bind at 1, lift at 1. destruct (js_get v _) as [data|e]; [|by intros [= _ <-]].
  destruct (truthy data); [|by intros [= _ <-]].
  run_handler. repeat case_match; by intros [= _ <-].
Qed.

Lemma handle_synced (e : event) (st : AppState) :
  app_inv st → synced st → synced (handle e st).2.
Proof.
  intros Hinv Hsync.
  assert (e = ClickGenerate ∨ e ≠ ClickGenerate) as [->|Hne]
    by (destruct e; (by left) || (by right)).
  { cbn [handle]. destruct (handleGenerateInstructions_frame st) as (? & ? & _).
    by apply (synced_ext st). }
  destruct (handle_inv e st Hinv) as [_ Hnormal]. specialize (Hnormal Hne).
  destruct (handle e st) as [c st'] eqn:Hrun. cbn [fst snd] in *. subst c.
  pose proof Hinv as [Hform (o & Hst & Hnames)].
  destruct e; cbn [handle] in Hrun;
    try (injection Hrun as <-; by apply (synced_ext st)).
  - destruct (decide (selectedConfig st = [])) as [Hsel|Hsel].
    + rewrite handleLoadConfig_none in Hrun by done. by injection Hrun as <-.
    + unfold synced. destruct Hst as [Hp _].
      rewrite (handleLoadConfig_configs st st' _ _ Hsel Hp Hrun).
      rewrite <- Hp. apply persisted_ext.
      rewrite <- (keeps_storage_handleLoadConfig st). by rewrite Hrun.
  - destruct (decide (configName st = [])) as [Hname|Hname].
    + rewrite handleSaveConfig_empty in Hrun by done. by injection Hrun as <-.
    + rewrite (handleSaveConfig_holds st o) in Hrun by done.
      injection Hrun as <-. apply saved_state_holds.
      destruct Hform as (Hi & Hu & Hp & Hk).
      apply storable_obj_set; [by apply storable_profile|apply Hst].
  - destruct (decide (selectedConfig st = [] ∨ confirmed = false)) as [Hskip|Hgo].
    + rewrite handleDeleteConfig_skipped in Hrun by done. by injection Hrun as <-.
    + assert (selectedConfig st ≠ [] ∧ confirmed = true) as [Hsel ->].
      { destruct confirmed; [|exfalso; apply Hgo; by right].
        split; [|done]. intros ?. apply Hgo. by left. }
      rewrite (handleDeleteConfig_holds st o) in Hrun by done.
      injection Hrun as <-. apply deleted_state_holds.
      apply storable_obj_delete, Hst.
  - done.
Qed.

Lemma handle_all_synced (es : list event) (st : AppState) :
  app_inv st → synced st → synced (handle_all es st).2.
Proof.
  revert st. induction es as [|e es IH]; intros st Hinv Hsync; [done|].
  destruct (handle_inv e st Hinv) as [Hinv1 _].
  pose proof (handle_synced e st Hinv Hsync) as Hsync1.
  cbn [handle_all]. unfold bind.
  destruct (handle e st) as [[[]|err] st1]; cbn [snd] in *; [|done].
  by apply IH.
Qed.

(** X9: in a single tab, [configs], from which the select of saved
    configurations is rendered, always mirrors the store.  When the
    component is mounted over a slot that is absent or holds a mapping with
    non-empty names, the mount effect completes, and after any sequence of
    events, whether it completes or is ended by an exception, [configs] is
    what the slot reads as.  A sequence without a click on Generate
    completes. *)
Theorem configs_mirror_store (ls : gmap js_string js_string) (o : object)
    (es : list event) :
  store_holds (useState_initial ls) o → names_nonempty o →
  ∃ st1,
    initialLoadEffect (useState_initial ls) = (Normal (), st1)
    ∧ synced (handle_all es st1).2
    ∧ app_inv (handle_all es st1).2
    ∧ (ClickGenerate ∉ es → (handle_all es st1).1 = Normal ()).
Proof.
  intros Hst Hne.
  set (st1 := with_configs (JObj o) (useState_initial ls)).
  assert (Hmount : initialLoadEffect (useState_initial ls) = (Normal (), st1)).
  { destruct Hst as [Hp _]. unfold persisted in Hp.
    unfold initialLoadEffect. run_handler.
    destruct (localStorage (useState_initial ls) !! slot) as [[|c s]|];
      [by injection Hp as <-| |by injection Hp as <-].
    by rewrite Hp. }
  assert (Hinv1 : app_inv st1).
  { split; [by repeat split|]. exists o. split; [|done].
    by apply (store_holds_ext (useState_initial ls)). }
  assert (Hsync1 : synced st1).
  { unfold synced. rewrite (persisted_ext (useState_initial ls)) by done.
    apply Hst. }
  exists st1. destruct (handle_all_inv es st1 Hinv1) as [Hinv' Hnormal].
  split_and!; [done| |done..]. by apply handle_all_synced.
Qed.
End Synced.

Lemma configs_mirror_store_witness :
  ∃ st1,
    initialLoadEffect (useState_initial ∅) = (Normal (), st1)
    ∧ synced
        (handle_all (H := lexeme_platform)
           [TypeConfigName (js "home"); ClickSave; SelectConfig (js "home");
            ClickLoad; ClickGenerate; ClickDelete true] st1).2.
Proof.
  destruct (configs_mirror_store (H := lexeme_platform) ∅ []
              [TypeConfigName (js "home"); ClickSave; SelectConfig (js "home");
               ClickLoad; ClickGenerate; ClickDelete true])
    as (st1 & Hmount & Hsync & _); [by split | by constructor |].
  by exists st1.
Defined.

(** ** The menu of saved configurations *)

Lemma str_leb_cons (x y : N) (a b : js_string) :
  str_leb (x :: a) (y :: b) = true ↔ (x < y)%N ∨ (x = y ∧ str_leb a b = true).
Proof.
  cbn [str_leb]. destruct (decide (x < y)%N); [tauto|].
  destruct (decide (x = y)); [tauto|].
  split; [done|]. intros [?|[? _]]; done.
Qed.

Instance str_le_total : Total str_le.
Proof.
  intros a. unfold str_le. induction a as [|x a IH]; intros [|y b]; try by left.
  - by right.
  - rewrite !str_leb_cons.
    destruct (N.lt_total x y) as [?|[->|?]]; [left; by left| |right; by left].
    destruct (IH b); [left|right]; by right.
Qed.

Instance str_le_trans : Transitive str_le.
Proof.
  intros a. unfold str_le. induction a as [|x a IH]; intros [|y b] [|z c]; try done.
  rewrite !str_leb_cons. intros [?|[-> ?]] [?|[-> ?]]; [left; lia| by left..|].
  right. split; [done|]. by apply (IH b).
Qed.

Instance str_le_antisym : AntiSymm eq str_le.
Proof.
  intros a. unfold str_le. induction a as [|x a IH]; intros [|y b]; try done.
  rewrite !str_leb_cons. intros [?|[-> ?]] [?|[? ?]]; try lia.
  f_equal. by apply IH.
Qed.

Lemma keys_wf_NoDup (ks : list js_string) : keys_wf ks = true → NoDup ks.
Proof.
  induction ks as [|k ks IH]; [constructor|].
  intros (Hk & _ & Hwf)%keys_wf_cons. constructor; [done|by apply IH].
Qed.

(** X10: once [configs] mirrors a store that holds a mapping, the select of
    saved configurations offers exactly the names of the mapping, each
    once, in ascending order of their code units. *)
Theorem menu_lists_store (st : AppState) (o : object) :
  store_holds st o → synced st →
  ∃ names,
    config_menu st = Normal names
    ∧ StronglySorted str_le names ∧ NoDup names
    ∧ ∀ n, n ∈ names ↔ is_Some (obj_get n o).
Proof.
  intros [Hp Hs] Hsync. unfold synced in Hsync.
  assert (Hc : configs st = JObj o) by congruence.
  exists (merge_sort str_le (o.*1)). split_and!.
  - unfold config_menu. by rewrite Hc.
  - apply StronglySorted_merge_sort; apply _.
  - rewrite merge_sort_Permutation. apply keys_wf_NoDup.
    by apply storable_obj in Hs as [? _].
  - intros n. rewrite merge_sort_Permutation.
    rewrite <- not_eq_None_Some, obj_get_None.
    split; [tauto|]. apply dec_stable.
Qed.

Lemma menu_lists_store_witness :
  let o := [(js "7", JObj []); (js "home", JObj []); (js "a", JObj [])] in
  let st := with_configs (JObj o)
              (useState_initial
                 {[slot := js "{" ++ [34]%N ++ js "home" ++ [34]%N ++ js ":{},"
                           ++ [34; 97; 34]%N ++ js ":{}," ++ [34; 55; 34]%N
                           ++ js ":{}}"]}) in
  ∃ names,
    config_menu st = Normal names
    ∧ names = [js "7"; js "a"; js "home"]
    ∧ StronglySorted str_le names ∧ NoDup names
    ∧ ∀ n, n ∈ names ↔ is_Some (obj_get n o).
Proof.
  intros o st.
  destruct (menu_lists_store st o) as (names & Hmenu & Hsorted & Hnodup & Hmem).
  - split; reflexivity.
  - reflexivity.
  - exists names. split_and!; [done| |done..].
    assert (Heval : config_menu st = Normal [js "7"; js "a"; js "home"])
      by reflexivity.
    rewrite Hmenu in Heval. by injection Heval.
Defined.

Section Menu.
Context `{Platform}.

(** X11: after a Save under a non-empty name [N] the select offers [N];
    after a confirmed Delete of a selected [N] it does not offer [N] any
    more. *)
Theorem menu_after_save_and_delete (st : AppState) (o : object) (N : js_string) :
  store_holds st o → form_storable st → N ≠ [] →
  (configName st = N →
     ∃ st' names, handleSaveConfig st = (Normal (), st')
       ∧ config_menu st' = Normal names ∧ N ∈ names)
  ∧ (selectedConfig st = N →
     ∃ st' names, handleDeleteConfig true st = (Normal (), st')
       ∧ config_menu st' = Normal names ∧ N ∉ names).
Proof.
  intros Hst (Hi & Hu & Hp & Hk) HN. split; intros Heq.
  - pose proof (handleSaveConfig_holds st o) as Hsave. rewrite Heq in Hsave.
    set (o' := obj_set N _ o) in Hsave.
    exists (saved_state st o'), (merge_sort str_le (o'.*1)).
    split_and!; [by apply Hsave|reflexivity|].
    rewrite merge_sort_Permutation. apply dec_stable.
    rewrite <- obj_get_None. unfold o'. rewrite obj_get_set.
    by rewrite decide_True.
  - pose proof (handleDeleteConfig_holds st o) as Hdel. rewrite Heq in Hdel.
    exists (deleted_state st (obj_delete N o)),
           (merge_sort str_le ((obj_delete N o).*1)).
    split_and!; [by apply Hdel|reflexivity|].
    rewrite merge_sort_Permutation, <- obj_get_None, obj_get_delete.
    by rewrite decide_True.
Qed.
End Menu.

Lemma menu_after_save_and_delete_witness :
  let st := fill_form (js "home") (js "h") (js "u") (js "22") (js "/k")
              (useState_initial ∅) in
  ∃ st' names, handleSaveConfig (H := lexeme_platform) st = (Normal (), st')
    ∧ config_menu st' = Normal names ∧ js "home" ∈ names.
Proof.
  intros st.
  refine (proj1 (menu_after_save_and_delete (H := lexeme_platform) st []
                   (js "home") _ _ _) _);
    [by split | by repeat split | discriminate | reflexivity].
Defined.

(** X12: when the slot holds a text that parses to [null], the mount effect
    puts [null] in [configs], and the render that follows throws a
    [TypeError] at [Object.keys(configs)]. *)
Theorem mount_over_null (ls : gmap js_string js_string) :
  persisted (useState_initial ls) = Some JNull →
  ∃ st', initialLoadEffect (useState_initial ls) = (Normal (), st')
    ∧ configs st' = JNull ∧ config_menu st' = Throw TypeError.
Proof.
  intros Hp. unfold persisted in Hp. unfold initialLoadEffect. run_handler.
  destruct (localStorage (useState_initial ls) !! slot) as [[|c s]|];
    [done| |done].
  rewrite Hp. by eexists.
Qed.

Lemma mount_over_null_witness :
  ∃ st', initialLoadEffect (useState_initial {[slot := js "null"]}) = (Normal (), st')
    ∧ configs st' = JNull ∧ config_menu st' = Throw TypeError.
Proof. apply (mount_over_null {[slot := js "null"]}). reflexivity. Defined.

(** ** The label of a key *)

Lemma join_snoc (sep x : js_string) (l : list js_string) :
  l ≠ [] → join sep (l ++ [x]) = join sep l ++ sep ++ x.
Proof.
  induction l as [|p l IH]; [done|]. intros _.
  destruct l as [|q l]; [done|].
  change ((p :: q :: l) ++ [x]) with (p :: (q :: l) ++ [x]).
  rewrite (join_cons_ne sep p ((q :: l) ++ [x])) by done.
  rewrite IH by done. rewrite (join_cons_ne sep p (q :: l)) by done.
  by rewrite <- !app_assoc.
Qed.

(** X13: the label shown for a key path is its last segment: it contains no
    solidus, and the path is either the label itself or a directory, a
    solidus and the label.  The label is never [undefined]. *)
Theorem key_label_basename (path : js_string) :
  ∃ label, key_label path = Some label
    ∧ (Char.solidus ∉ label)
    ∧ (path = label ∨ ∃ dir, path = dir ++ Char.solidus :: label).
Proof.
  unfold key_label.
  pose proof (split_nonempty Char.solidus path) as Hne.
  pose proof (split_join Char.solidus path) as Hjoin.
  pose proof (split_no_sep Char.solidus path) as Hsep.
  destruct (split Char.solidus path) as [|p ps] using rev_ind; [done|].
  clear IHps. exists p. rewrite last_snoc. split_and!; [done| |].
  - by apply Forall_app in Hsep as [_ [? _]%Forall_cons].
  - destruct ps as [|q ps]; [by left|]. right.
    rewrite join_snoc in Hjoin by done.
    eexists. by rewrite <- Hjoin.
Qed.

(** ** The instructions *)

(** X14: when the four fields are non-empty strings, the modal is opened
    with exactly three blocks: [cat <key>.pub], the fixed script for the
    device, and [ssh-keygen -R <ip>].  The user and the port must be
    filled in but appear nowhere in what is shown; nothing else in the
    state changes. *)
Theorem generate_output `{Platform} (st : AppState) (ip user port key : js_string) :
  ip ≠ [] → user ≠ [] → port ≠ [] → key ≠ [] →
  let st0 := fill_form (configName st) ip user port key st in
  handleGenerateInstructions st0
  = (Normal (),
     with_isModalOpen true
       (with_modalContent
          (Some {| publicKeyPath := js "cat " ++ key ++ js ".pub";
                   debianCommands := debianCommandsText;
                   removeHostKeyCommand := js "ssh-keygen -R " ++ ip |})
          st0)).
Proof.
  intros Hi Hu Hp Hk st0. unfold handleGenerateInstructions.
  cbn [st0 fill_form pixelIp pixelUser sshPort selectedKey with_selectedKey
       with_sshPort with_pixelUser with_pixelIp with_configName to_boolean
       to_string].
  by rewrite !bool_decide_eq_true_2.
Qed.

Lemma generate_output_witness :
  let st0 := fill_form [] (js "10.0.0.5") (js "pat") (js "22") (js "/k")
               (useState_initial ∅) in
  handleGenerateInstructions (H := lexeme_platform) st0
  = (Normal (),
     with_isModalOpen true
       (with_modalContent
          (Some {| publicKeyPath := js "cat " ++ js "/k" ++ js ".pub";
                   debianCommands := debianCommandsText;
                   removeHostKeyCommand := js "ssh-keygen -R " ++ js "10.0.0.5" |})
          st0)).
Proof.
  apply (generate_output (H := lexeme_platform) (useState_initial ∅)
           (js "10.0.0.5") (js "pat") (js "22") (js "/k")); discriminate.
Defined.

(** ** The theme *)

(** X15: whatever ['themeMode'] holds in [localStorage], the component
    starts in the light or in the dark mode, with the palette of that mode;
    anything else than ['dark'] gives the light mode. *)
Theorem initial_mode_valid (ls : gmap js_string js_string) :
  (initial_mode ls = js "dark" ∧ ls !! theme_key = Some (js "dark")
   ∧ primary_main (getTheme (initial_mode ls)) = js "#64ffda")
  ∨ (initial_mode ls = js "light" ∧ ls !! theme_key ≠ Some (js "dark")
     ∧ primary_main (getTheme (initial_mode ls)) = js "#3f51b5").
Proof.
  unfold initial_mode. destruct (ls !! theme_key) as [m|]; [|by right].
  destruct (decide (m = js "light" ∨ m = js "dark")) as [[->| ->]|Hm].
  - by right.
  - by left.
  - right. split_and!; [done| |done]. intros [= ->]. apply Hm. by right.
Qed.

(** X16: a mode chosen with the switch is the mode the component starts in
    the next time it is mounted; the choice is written under ['themeMode']
    and leaves the store of configurations as it reads.  When the active
    button is clicked again ([null]) nothing changes. *)
Theorem theme_round_trip (st : AppState) (mode m : js_string) :
  m = js "light" ∨ m = js "dark" →
  (handleThemeChange (Some m) mode st).1 = m
  ∧ initial_mode (localStorage (handleThemeChange (Some m) mode st).2) = m
  ∧ persisted (handleThemeChange (Some m) mode st).2 = persisted st
  ∧ handleThemeChange None mode st = (mode, st).
Proof.
  intros Hm. split_and!; [done| | |done].
  - cbn [handleThemeChange snd with_localStorage localStorage].
    unfold initial_mode. rewrite lookup_insert_eq. by rewrite decide_True.
  - unfold persisted.
    cbn [handleThemeChange snd with_localStorage localStorage].
    rewrite lookup_insert_ne; [done|]. intros Heq. vm_compute in Heq. discriminate.
Qed.

Lemma theme_round_trip_witness :
  initial_mode
    (localStorage
       (handleThemeChange (Some (js "dark")) (js "light") (useState_initial ∅)).2)
  = js "dark".
Proof.
  refine (proj1 (proj2 (theme_round_trip (useState_initial ∅) (js "light")
                          (js "dark") _))).
  by right.
Defined.


(** ** Entries that are not profiles *)

(** X17: Load looks at the entry before it touches the form.  An entry that
    is falsy ([null], [false], the empty string) is ignored: only [configs]
    is refreshed.  An entry that is truthy but not an object (a non-empty
    string, [true], an array) has none of the four fields, so the form is
    overwritten with the name and the defaults. *)
Theorem load_non_profile_entry `{Platform} (st : AppState) (o : object) (data : json) :
  selectedConfig st ≠ [] → persisted st = Some (JObj o) →
  obj_get (selectedConfig st) o = Some data →
  (to_boolean data = false →
     handleLoadConfig st = (Normal (), with_configs (JObj o) st))
  ∧ (to_boolean data = true → (∀ p, data ≠ JObj p) →
     ∃ st', handleLoadConfig st = (Normal (), st')
       ∧ configName st' = selectedConfig st
       ∧ pixelIp st' = JStr [] ∧ pixelUser st' = JStr []
       ∧ sshPort st' = JStr (js "22") ∧ selectedKey st' = JStr []).
Proof.
  intros Hsel Hp Hdata.
  assert (Hget : js_get (JObj o) (selectedConfig st) = Normal (Val data))
    by (cbn [js_get get_own]; by rewrite Hdata).
  split.
  - intros Hfalse. by apply (handleLoadConfig_falsy st (JObj o) (Val data)).
  - intros Htrue Hnobj.
    assert (Hfield : ∀ f, f ∈ profile_fields →
              get_field (Val data) f = Normal Undefined).
    { intros f Hf. cbn [get_field]. unfold js_get.
      rewrite get_own_profile_field, inherited_profile_field by done.
      destruct data; try done. by destruct (Hnobj props). }
    eexists. split.
    + apply (handleLoadConfig_truthy st (JObj o) (Val data)
               Undefined Undefined Undefined Undefined); try done;
        apply Hfield; unfold profile_fields; set_solver.
    + done.
Qed.

Lemma load_non_profile_entry_witness :
  let st := with_selectedConfig (js "a")
              (useState_initial {[slot := js "{" ++ [34; 97; 34]%N ++ js ":null}"]}) in
  handleLoadConfig (H := lexeme_platform) st
  = (Normal (), with_configs (JObj [(js "a", JNull)]) st).
Proof.
  intros st.
  refine (proj1 (load_non_profile_entry (H := lexeme_platform) st
                   [(js "a", JNull)] JNull _ _ _) _);
    [discriminate | reflexivity | reflexivity | reflexivity].
Defined.

(** ** A field that cannot be printed *)

(** X18: the fields Load copies into the form are whatever the stored entry
    holds.  When the stored [ip] is an object with an own property
    [toString] (and the user, the port and the key path are non-empty
    strings), Load completes, and the click on Generate that follows throws
    a [TypeError] at the template literal of [ssh-keygen -R], before
    anything is shown: the state stays as Load left it. *)
Theorem load_then_generate_unprintable `{Platform} (st : AppState)
    (o p q : object) (x : json) (user port key : js_string) :
  selectedConfig st ≠ [] → persisted st = Some (JObj o) →
  obj_get (selectedConfig st) o = Some (JObj p) →
  obj_get (js "ip") p = Some (JObj q) → obj_get (js "toString") q = Some x →
  obj_get (js "user") p = Some (JStr user) → user ≠ [] →
  obj_get (js "port") p = Some (JStr port) → port ≠ [] →
  obj_get (js "keyPath") p = Some (JStr key) → key ≠ [] →
  ∃ st1,
    handleLoadConfig st = (Normal (), st1)
    ∧ pixelIp st1 = JObj q
    ∧ handleGenerateInstructions st1 = (Throw TypeError, st1).
Proof.
  intros Hsel Hp Hentry Hip Hts Huser Hu Hport Hpo Hkey Hk.
  assert (Hdata : js_get (JObj o) (selectedConfig st) = Normal (Val (JObj p)))
    by (cbn [js_get get_own]; by rewrite Hentry).
  assert (Hfield : ∀ f y, obj_get f p = Some y →
            get_field (Val (JObj p)) f = Normal (Val y)).
  { intros f y Hf. cbn [get_field js_get get_own]. by rewrite Hf. }
  eexists. split.
  { eapply handleLoadConfig_truthy; [done|exact Hp|exact Hdata|done|..];
      by apply Hfield. }
  split; [reflexivity|].
  unfold handleGenerateInstructions.
  cbn [loaded_state pixelIp pixelUser sshPort selectedKey with_selectedKey
       with_sshPort with_pixelUser with_pixelIp with_configName with_configs
       or_default to_boolean].
  rewrite !bool_decide_eq_true_2 by done.
  cbn [to_boolean to_string]. rewrite !bool_decide_eq_true_2 by done.
  cbn [negb orb]. rewrite Hts. reflexivity.
Qed.

Lemma load_then_generate_unprintable_witness :
  let q := [(js "toString", JStr (js "x"))] in
  let p := [(js "ip", JObj q); (js "user", JStr (js "pat"));
            (js "port", JStr (js "22")); (js "keyPath", JStr (js "/k"))] in
  let o := [(js "a", JObj p)] in
  let st := with_selectedConfig (js "a")
              (useState_initial
                 {[slot := JSON_stringify (H := lexeme_platform) (JObj o)]}) in
  ∃ st1,
    handleLoadConfig (H := lexeme_platform) st = (Normal (), st1)
    ∧ pixelIp st1 = JObj q
    ∧ handleGenerateInstructions (H := lexeme_platform) st1
      = (Throw TypeError, st1).
Proof.
  intros q p o st.
  apply (load_then_generate_unprintable (H := lexeme_platform) st o p q
           (JStr (js "x")) (js "pat") (js "22") (js "/k"));
    reflexivity || discriminate.
Defined.

(** ** The fuel of the parser *)

Lemma skip_ws_length (s : js_string) : length (skip_ws s) ≤ length s.
Proof.
  induction s as [|c s IH]; cbn [skip_ws]; [done|].
  destruct (is_json_ws c); cbn [length]; lia.
Qed.

Lemma skip_ws_cons_length (s r : js_string) (c : N) :
  skip_ws s = c :: r → length r < length s.
Proof.
  intros Hs. pose proof (skip_ws_length s) as Hl. rewrite Hs in Hl.
  cbn [length] in Hl. lia.
Qed.

Lemma parse_string_chars_length (s k r : js_string) :
  parse_string_chars s = Some (k, r) → length r < length s.
Proof.
  remember (length s) as n eqn:Hn. revert s k r Hn.
  induction n as [n IH] using lt_wf_ind. intros s k r ->.
  destruct s as [|c s1]; [done|]. cbn [parse_string_chars].
  destruct (decide (c = Char.quote)).
  { intros [= <- <-]. cbn [length]. lia. }
  destruct (decide (c = Char.backslash)).
  - destruct s1 as [|esc s2]; [done|].
    destruct (decide (esc = Char.lower_u)).
    + destruct s2 as [|h1 [|h2 [|h3 [|h4 s3]]]]; try done.
      destruct (unhex4 h1 h2 h3 h4); [|done]. cbn [mbind option_bind].
      destruct (parse_string_chars s3) as [[cs r']|] eqn:Hp; [|done].
      intros [= <- <-].
      pose proof (IH (length s3) ltac:(cbn [length]; lia) s3 _ _ eq_refl Hp).
      cbn [length]. lia.
    + destruct (escape_char esc); [|done]. cbn [mbind option_bind].
      destruct (parse_string_chars s2) as [[cs r']|] eqn:Hp; [|done].
      intros [= <- <-].
      pose proof (IH (length s2) ltac:(cbn [length]; lia) s2 _ _ eq_refl Hp).
      cbn [length]. lia.
  - destruct (decide (c < 32)%N); [done|].
    destruct (parse_string_chars s1) as [[cs r']|] eqn:Hp; [|done].
    intros [= <- <-].
    pose proof (IH (length s1) ltac:(cbn [length]; lia) s1 _ _ eq_refl Hp).
    cbn [length]. lia.
Qed.

Lemma span_digits_length (s : js_string) :
  length (span_digits s).2 ≤ length s.
Proof.
  induction s as [|c s IH]; cbn [span_digits]; [done|].
  destruct (is_digit c); [|done].
  destruct (span_digits s) as [ds r]. cbn [snd length] in *. lia.
Qed.

Lemma lex_number_length (s x r : js_string) :
  lex_number s = Some (x, r) → length r < length s.
Proof.
  unfold lex_number.
  set (sg := match s with
             | [] => ([], [])
             | c :: s' => if decide (c = Char.minus) then ([c], s') else ([], s)
             end).
  assert (Hsg : length sg.2 ≤ length s).
  { unfold sg. destruct s as [|c s']; [done|]. case_decide; cbn [snd length]; lia. }
  destruct sg as [sgn s1]. cbn [snd] in Hsg.
  destruct (lex_int s1) as [[i s2]|] eqn:Hi; [|done]. cbn [mbind option_bind].
  assert (Hi' : length s2 < length s1).
  { unfold lex_int in Hi. destruct s1 as [|c s']; [done|].
    case_decide; [injection Hi as <- <-; cbn [length]; lia|].
    destruct (is_digit c); [|done].
    pose proof (span_digits_length s') as Hsp.
    destruct (span_digits s') as [ds r0]. injection Hi as <- <-.
    cbn [snd length] in *. lia. }
  destruct (lex_frac s2) as [[f s3]|] eqn:Hf; [|done]. cbn [mbind option_bind].
  assert (Hf' : length s3 ≤ length s2).
  { unfold lex_frac in Hf. destruct s2 as [|c s']; [by injection Hf as <- <-|].
    case_decide; [|by injection Hf as <- <-].
    pose proof (span_digits_length s') as Hsp.
    destruct (span_digits s') as [[|d ds] r0]; [done|]. injection Hf as <- <-.
    cbn [snd length] in *. lia. }
  destruct (lex_exp s3) as [[e s4]|] eqn:He; [|done]. cbn [mbind option_bind].
  assert (He' : length s4 ≤ length s3).
  { unfold lex_exp in He. destruct s3 as [|c s']; [by injection He as <- <-|].
    case_decide; [|by injection He as <- <-].
    assert (Hs' : length (lex_sign s').2 ≤ length s').
    { unfold lex_sign. destruct s' as [|c' s'']; [done|].
      case_decide; cbn [snd length]; lia. }
    destruct (lex_sign s') as [sg' s''].
    pose proof (span_digits_length s'') as Hsp.
    destruct (span_digits s'') as [[|d ds] r0]; [done|]. injection He as <- <-.
    cbn [snd length] in *. lia. }
  intros [= <- <-]. lia.
Qed.

Lemma strip_prefix_length (p s r : js_string) :
  strip_prefix p s = Some r → length r ≤ length s.
Proof.
  revert s. induction p as [|a p IH]; intros [|b s]; cbn [strip_prefix]; try done.
  - by intros [= <-].
  - by intros [= <-].
  - case_decide; [|done]. intros Hp%IH. cbn [length]. lia.
Qed.

(** A result obtained with some fuel is obtained with every fuel above twice
    the length of the text (plus one inside an object or an array), and what
    is left of the text is shorter than the text. *)
Lemma parse_value_fuel (fuel : nat) :
  (∀ s x, parse_value fuel s = Some x →
     length x.2 < length s
     ∧ ∀ fuel', 2 * length s < fuel' → parse_value fuel' s = Some x)
  ∧ (∀ s x, parse_members fuel s = Some x →
     length x.2 < length s
     ∧ ∀ fuel', 2 * length s + 1 < fuel' → parse_members fuel' s = Some x)
  ∧ (∀ s x, parse_elements fuel s = Some x →
     length x.2 < length s
     ∧ ∀ fuel', 2 * length s + 1 < fuel' → parse_elements fuel' s = Some x).
Proof.
  induction fuel as [|f (IHv & IHm & IHe)]; [done|]. split_and!.
  - intros s x Hp. destruct s as [|c s1]; [done|].
    cut (length x.2 < length (c :: s1)
         ∧ ∀ f', 2 * length (c :: s1) ≤ f' → parse_value (S f') (c :: s1) = Some x).
    { intros [? Hf]. split; [done|]. intros [|f'] ?; [lia|]. apply Hf. lia. }
    cbn [parse_value] in Hp |- *. cbn [length].
    destruct (decide (c = Char.lbrace)).
    { destruct (skip_ws s1) as [|d s2] eqn:Hws; [done|].
      apply skip_ws_cons_length in Hws.
      destruct (decide (d = Char.rbrace)).
      { injection Hp as <-. cbn [snd]. split; [lia|done]. }
      destruct (parse_members f (d :: s2)) as [[kvs r]|] eqn:Hm; [|done].
      injection Hp as <-. destruct (IHm _ _ Hm) as [Hlen Hfuel].
      cbn [snd length] in *. split; [lia|]. intros f' Hf'.
      by rewrite Hfuel by lia. }
    destruct (decide (c = Char.lbracket)).
    { destruct (skip_ws s1) as [|d s2] eqn:Hws; [done|].
      apply skip_ws_cons_length in Hws.
      destruct (decide (d = Char.rbracket)).
      { injection Hp as <-. cbn [snd]. split; [lia|done]. }
      destruct (parse_elements f (d :: s2)) as [[vs r]|] eqn:He; [|done].
      injection Hp as <-. destruct (IHe _ _ He) as [Hlen Hfuel].
      cbn [snd length] in *. split; [lia|]. intros f' Hf'.
      by rewrite Hfuel by lia. }
    destruct (decide (c = Char.quote)).
    { destruct (parse_string_chars s1) as [[str r]|] eqn:Hs; [|done].
      injection Hp as <-. apply parse_string_chars_length in Hs.
      cbn [snd]. split; [lia|done]. }
    destruct (decide (c = Char.lower_t)).
    { destruct (strip_prefix (js "rue") s1) as [r|] eqn:Hs; [|done].
      injection Hp as <-. apply strip_prefix_length in Hs.
      cbn [snd]. split; [lia|done]. }
    destruct (decide (c = Char.lower_f)).
    { destruct (strip_prefix (js "alse") s1) as [r|] eqn:Hs; [|done].
      injection Hp as <-. apply strip_prefix_length in Hs.
      cbn [snd]. split; [lia|done]. }
    destruct (decide (c = Char.lower_n)).
    { destruct (strip_prefix (js "ull") s1) as [r|] eqn:Hs; [|done].
      injection Hp as <-. apply strip_prefix_length in Hs.
      cbn [snd]. split; [lia|done]. }
    destruct (lex_number (c :: s1)) as [[lexeme r]|] eqn:Hs; [|done].
    injection Hp as <-. apply lex_number_length in Hs.
    cbn [snd length] in *. split; [lia|done].
  - intros s x Hp. destruct s as [|c s1]; [done|].
    cut (length x.2 < length (c :: s1)
         ∧ ∀ f', 2 * length (c :: s1) + 1 ≤ f' →
             parse_members (S f') (c :: s1) = Some x).
    { intros [? Hf]. split; [done|]. intros [|f'] ?; [lia|]. apply Hf. lia. }
    cbn [parse_members] in Hp |- *. cbn [length].
    destruct (decide (c = Char.quote)); [|done].
    destruct (parse_string_chars s1) as [[k s2]|] eqn:Hk; [|done].
    apply parse_string_chars_length in Hk. cbn [mbind option_bind] in Hp |- *.
    cbv beta iota in Hp |- *.
    destruct (skip_ws s2) as [|d s3] eqn:Hws2; [done|].
    apply skip_ws_cons_length in Hws2.
    destruct (decide (d = Char.colon)); [|done].
    pose proof (skip_ws_length s3) as Hws3.
    destruct (parse_value f (skip_ws s3)) as [[v s4]|] eqn:Hv; [|done].
    destruct (IHv _ _ Hv) as [Hlenv Hfuelv]. cbn [snd] in Hlenv.
    cbn [mbind option_bind] in Hp. cbv beta iota in Hp.
    destruct (skip_ws s4) as [|e' s5] eqn:Hws4; [done|].
    pose proof (skip_ws_cons_length _ _ _ Hws4) as Hlen4.
    pose proof (skip_ws_length s5) as Hws5.
    assert (Hcall : ∀ f', 2 * S (length s1) + 1 ≤ f' →
              parse_value f' (skip_ws s3) = Some (v, s4))
      by (intros f' Hf'; apply Hfuelv; lia).
    destruct (decide (e' = Char.comma)).
    + destruct (parse_members f (skip_ws s5)) as [[kvs r]|] eqn:Hm; [|done].
      injection Hp as <-. destruct (IHm _ _ Hm) as [Hlenm Hfuelm].
      cbn [snd] in *. split; [lia|]. intros f' Hf'.
      rewrite Hcall by done. cbn [mbind option_bind]. cbv beta iota.
      rewrite Hws4, decide_True by done. by rewrite Hfuelm by lia.
    + destruct (decide (e' = Char.rbrace)); [|done].
      injection Hp as <-. cbn [snd]. split; [lia|]. intros f' Hf'.
      rewrite Hcall by done. cbn [mbind option_bind]. cbv beta iota.
      rewrite Hws4, decide_False, decide_True by done. done.
  - intros s x Hp.
    cut (length x.2 < length s
         ∧ ∀ f', 2 * length s + 1 ≤ f' → parse_elements (S f') s = Some x).
    { intros [? Hf]. split; [done|]. intros [|f'] ?; [lia|]. apply Hf. lia. }
    cbn [parse_elements] in Hp |- *.
    destruct (parse_value f s) as [[v s1]|] eqn:Hv; [|done].
    destruct (IHv _ _ Hv) as [Hlenv Hfuelv]. cbn [snd] in Hlenv.
    cbn [mbind option_bind] in Hp. cbv beta iota in Hp.
    destruct (skip_ws s1) as [|e' s2] eqn:Hws1; [done|].
    pose proof (skip_ws_cons_length _ _ _ Hws1) as Hlen1.
    pose proof (skip_ws_length s2) as Hws2.
    destruct (decide (e' = Char.comma)).
    + destruct (parse_elements f (skip_ws s2)) as [[vs r]|] eqn:He; [|done].
      injection Hp as <-. destruct (IHe _ _ He) as [Hlene Hfuele].
      cbn [snd] in *. split; [lia|]. intros f' Hf'.
      rewrite Hfuelv by lia. cbn [mbind option_bind]. cbv beta iota.
      rewrite Hws1, decide_True by done. by rewrite Hfuele by lia.
    + destruct (decide (e' = Char.rbracket)); [|done].
      injection Hp as <-. cbn [snd]. split; [lia|]. intros f' Hf'.
      rewrite Hfuelv by lia. cbn [mbind option_bind]. cbv beta iota.
      rewrite Hws1, decide_False, decide_True by done. done.
Qed.

(** The fuel [JSON_parse] gives the parser always suffices: a text that is
    read with any amount of fuel is read, with the same result, by
    [JSON_parse].  So [JSON_parse s = None] means that the text [s] is not
    JSON, never that the parser gave up. *)
Theorem JSON_parse_fuel (fuel : nat) (s : js_string) (v : json) (r : js_string) :
  parse_value fuel (skip_ws s) = Some (v, r) → skip_ws r = [] →
  JSON_parse s = Some v.
Proof.
  intros Hp Hr. unfold JSON_parse.
  destruct (parse_value_fuel fuel) as (Hv & _ & _).
  destruct (Hv _ _ Hp) as [_ Hfuel].
  rewrite Hfuel by (pose proof (skip_ws_length s); lia).
  by rewrite Hr.
Qed.

Lemma JSON_parse_fuel_witness : JSON_parse (js " {} ") = Some (JObj []).
Proof.
  apply (JSON_parse_fuel 1 (js " {} ") (JObj []) (js " ")); reflexivity.
Defined.
